(** * scripts/make_plots.py: loading heteronym tables and the tables behind the three plots

    A shallow embedding of [load_data], [plot_variant_counts],
    [plot_ipa_length] and [plot_word_cards].  The script is glue around
    pandas, so the embedding has two layers:

    - the pandas operations the script calls (object-dtype semantics of
      pandas 1.x/2.x: [astype(str)] turns a missing value into the text
      [nan]; [nunique], [groupby] and [dropna] skip missing values;
      [drop_duplicates] and [unique] keep first occurrences; sorting is
      stable), written as functions on tables;
    - the script's functions, written in a state-and-exception monad over a
      store of DataFrame objects, because the script mutates frames in
      place ([df["source_file"] = ...], the normalisation, [tmp["ipa_len"]]).

    Rendering (seaborn, matplotlib) is outside the model: each plot function
    returns the table it hands to the renderer.  In [main] every step that
    works outside the tables (the command line, the output directory, the
    theme, the drawing and saving of each figure, the final report) is a
    step that may raise. *)

From stdpp Require Import prelude strings pretty gmap sorting.

Local Open Scope list_scope.
Local Open Scope nat_scope.

(** ** Python strings *)

(** A Python [str] is a sequence of Unicode code points. *)
Abbreviation pystr := (list N).

(** An ASCII literal. *)
Definition lit (s : string) : pystr :=
  (λ a, Ascii.N_of_ascii a) <$> String.list_ascii_of_string s.

(** [str.isspace] on one code point: the characters [str.strip()] removes. *)
Definition py_isspace (c : N) : bool :=
  ((9 <=? c) && (c <=? 13) || (28 <=? c) && (c <=? 32)
   || (c =? 133) || (c =? 160) || (c =? 5760)
   || (8192 <=? c) && (c <=? 8202)
   || (c =? 8232) || (c =? 8233) || (c =? 8239) || (c =? 8287)
   || (c =? 12288))%N.

Fixpoint lstrip (s : pystr) : pystr :=
  match s with
  | [] => []
  | c :: s' => if py_isspace c then lstrip s' else s
  end.

Fixpoint rstrip (s : pystr) : pystr :=
  match s with
  | [] => []
  | c :: s' =>
      match rstrip s' with
      | [] => if py_isspace c then [] else [c]
      | t => c :: t
      end
  end.

(** [s.strip()] *)
Definition strip (s : pystr) : pystr := rstrip (lstrip s).

(** ** Three-way comparisons *)

Definition cmp_then (c1 c2 : comparison) : comparison :=
  match c1 with Eq => c2 | _ => c1 end.

(** Python compares strings code point by code point. *)
Fixpoint str_cmp (a b : pystr) : comparison :=
  match a, b with
  | [], [] => Eq
  | [], _ :: _ => Lt
  | _ :: _, [] => Gt
  | x :: a', y :: b' => cmp_then (x ?= y)%N (str_cmp a' b')
  end.

(** The laws of a total preorder given by a three-way comparison, on the
    elements that satisfy [P]. *)
Class TotalCmpOn {A} (P : A → Prop) (c : A → A → comparison) : Prop := {
  cmp_opp : ∀ a b, P a → P b → c b a = CompOpp (c a b);
  cmp_lt_trans : ∀ a b d, P a → P b → P d → c a b = Lt → c b d = Lt → c a d = Lt;
  cmp_eq_l : ∀ a b d, P a → P b → P d → c a b = Eq → c a d = c b d;
}.

(** The laws on every element. *)
Abbreviation TotalCmp := (TotalCmpOn (λ _, True)).

(** [a] may stand before [b]. *)
Definition cmp_le {A} (c : A → A → comparison) (a b : A) : Prop := c a b ≠ Gt.

(** A stable sort (insertion keeps equal elements in their order), as
    [sorted] and [sort_values] are. *)
Section sort.
Context {A} (c : A → A → comparison).

Fixpoint insert_sorted (x : A) (l : list A) : list A :=
  match l with
  | [] => [x]
  | y :: l' => if c x y is Gt then y :: insert_sorted x l' else x :: l
  end.

Fixpoint stable_sort (l : list A) : list A :=
  match l with
  | [] => []
  | x :: l' => insert_sorted x (stable_sort l')
  end.
End sort.

(** First occurrences, in order of appearance ([Series.unique],
    [drop_duplicates]). *)
Section unique.
Context `{EqDecision A}.

Fixpoint unique_from (seen l : list A) : list A :=
  match l with
  | [] => []
  | x :: l' =>
      if decide (x ∈ seen) then unique_from seen l'
      else x :: unique_from (x :: seen) l'
  end.

Definition unique (l : list A) : list A := unique_from [] l.
End unique.

(** [DataFrame.head(n)]: the first [n] rows, or for a negative [n] all rows
    but the last [-n]. *)
Definition head {A} (n : Z) (l : list A) : list A :=
  if (0 <=? n)%Z then take (Z.to_nat n) l
  else take (length l - Z.to_nat (- n)) l.

(** ** File name patterns *)

Inductive glob_tok := GChar (c : N) | GAny | GStar.

(** [*] is code point 42, [?] is 63; the script's pattern has no bracket
    class. *)
Definition glob_compile (pat : pystr) : list glob_tok :=
  (λ c, if (c =? 42)%N then GStar else if (c =? 63)%N then GAny else GChar c)
    <$> pat.

Fixpoint glob_match (pat : list glob_tok) (s : pystr) : bool :=
  match pat with
  | [] => if s is [] then true else false
  | GChar c :: pat' =>
      match s with
      | x :: s' => (x =? c)%N && glob_match pat' s'
      | [] => false
      end
  | GAny :: pat' =>
      match s with
      | _ :: s' => glob_match pat' s'
      | [] => false
      end
  | GStar :: pat' =>
      (fix star (s : pystr) : bool :=
         glob_match pat' s ||
         match s with
         | [] => false
         | _ :: s' => star s'
         end) s
  end.

(** ** Cells, rows and frames *)

(** What a cell holds when it is not missing: a Python [str], or a number
    (a numpy int64, float64 or bool). *)
Inductive value (scalar : Type) :=
  | Str (s : pystr)
  | Num (x : scalar).
Arguments Str {scalar} s.
Arguments Num {scalar} x.

(** The numbers a column can hold.  The script never computes with them: it
    compares them, prints them ([astype(str)]), counts characters into them
    ([str.len]) and lets [pd.concat] cast them to the common dtype of the
    pieces of a column ([promote col x]: the number [x] as it stands in the
    concatenated column [col], for example an int64 in a column that also
    has missing values becomes a float64). *)
Class Scalar (scalar : Type) := {
  scalar_eq_dec :: EqDecision scalar;
  scalar_str : scalar → pystr;
  scalar_cmp : scalar → scalar → comparison;
  scalar_of_nat : nat → scalar;
  promote : list (option (value scalar)) → scalar → scalar;
}.

Global Instance value_eq_dec `{EqDecision scalar} : EqDecision (value scalar).
Proof. solve_decision. Defined.

(** A cell: [None] is pandas' missing value (NaN). *)
Abbreviation cell scalar := (option (value scalar)).

(** A column with its values in row order. *)
Abbreviation Series scalar := (list (option (value scalar))).

(** A record of the table, by column name; a column the row has no entry
    for is missing in that row. *)
Abbreviation row scalar := (gmap pystr (value scalar)).

(** References to objects. *)
Abbreviation loc := nat.

Section model.
Context `{Scalar scalar}.

Record DataFrame := {
  columns : list pystr;
  rows : list (row scalar);
}.

(** The objects of a run, by reference. *)
Abbreviation store := (list DataFrame).

(** pandas orders numbers before strings in a column that mixes them. *)
Definition value_cmp (a b : value scalar) : comparison :=
  match a, b with
  | Str s, Str t => str_cmp s t
  | Num x, Num y => scalar_cmp x y
  | Num _, Str _ => Lt
  | Str _, Num _ => Gt
  end.

Definition pair_cmp (a b : value scalar * value scalar) : comparison :=
  cmp_then (value_cmp a.1 b.1) (value_cmp a.2 b.2).

(** Python's [str(x)]. *)
Definition py_str (o : cell scalar) : pystr :=
  match o with
  | None => lit "nan"
  | Some (Str s) => s
  | Some (Num x) => scalar_str x
  end.

(** [Series.astype(str)] *)
Definition astype_str (s : Series scalar) : Series scalar := (λ o, Some (Str (py_str o))) <$> s.

(** [Series.str.strip()]: a cell that is not a string becomes missing.
    The script calls it on the result of [astype(str)] only. *)
Definition str_strip (s : Series scalar) : Series scalar :=
  (λ o, match o with Some (Str t) => Some (Str (strip t)) | _ => None end) <$> s.

(** [Series.str.len()].  pandas gives the [.str] accessor only on a
    column it holds as objects; the script calls it on the ipa column of
    a loaded table, which holds strings only. *)
Definition str_len (s : Series scalar) : Series scalar :=
  (λ o, match o with
        | Some (Str t) => Some (Num (scalar_of_nat (length t)))
        | _ => None
        end) <$> s.

(** [Series.dropna()] *)
Definition dropna (s : Series scalar) : list (value scalar) := omap id s.

(** [Series.nunique()]: distinct values, missing ones not counted. *)
Definition nunique (s : Series scalar) : nat := length (unique (dropna s)).

(** The cells of column [c]. *)
Definition column (c : pystr) (rs : list (row scalar)) : Series scalar := (λ r : row scalar, r !! c) <$> rs.

Definition set_cell (c : pystr) (o : cell scalar) (r : row scalar) : row scalar :=
  match o with
  | Some v => <[c:=v]> r
  | None => delete c r
  end.

(** Assigning a Series to a column aligns on the index: row [i] takes
    element [i], rows past the end of the Series become missing. *)
Fixpoint set_cells (c : pystr) (s : Series scalar) (rs : list (row scalar)) : list (row scalar) :=
  match rs with
  | [] => []
  | r :: rs' =>
      match s with
      | [] => delete c r :: set_cells c [] rs'
      | o :: s' => set_cell c o r :: set_cells c s' rs'
      end
  end.

Definition add_column (c : pystr) (cols : list pystr) : list pystr :=
  if decide (c ∈ cols) then cols else cols ++ [c].

(** [df[c] = s], as a new frame value. *)
Definition set_column (c : pystr) (s : Series scalar) (df : DataFrame) : DataFrame :=
  {| columns := add_column c (columns df); rows := set_cells c s (rows df) |}.

(** [df[c] = v] for one value [v], which fills the column. *)
Definition fill_column (c : pystr) (v : value scalar) (df : DataFrame) : DataFrame :=
  {| columns := add_column c (columns df);
     rows := (λ r : row scalar, <[c:=v]> r) <$> rows df |}.

Definition promote_value (col : Series scalar) (v : value scalar) : value scalar :=
  match v with
  | Str s => Str s
  | Num x => Num (promote col x)
  end.

Definition promote_row (rs : list (row scalar)) (r : row scalar) : row scalar :=
  map_imap (λ c v, Some (promote_value (column c rs) v)) r.

(** [pd.concat(frames, ignore_index=True)] of at least one frame: the
    columns in order of first appearance, the rows one frame after the
    other; a row is missing in the columns its frame does not have. *)
Definition concat_frames (frames : list DataFrame) : DataFrame :=
  let rs := concat (rows <$> frames) in
  {| columns := unique (concat (columns <$> frames));
     rows := promote_row rs <$> rs |}.

(** The key of a row under [groupby([c1, c2])]; a row with a missing key
    is in no group. *)
Definition key_of (c1 c2 : pystr) (r : row scalar) : option (value scalar * value scalar) :=
  v1 ← r !! c1; v2 ← r !! c2; Some (v1, v2).

Definition group_keys (c1 c2 : pystr) (rs : list (row scalar)) : list (value scalar * value scalar) :=
  stable_sort pair_cmp (unique (omap (key_of c1 c2) rs)).

Definition group_rows (c1 c2 : pystr) (k : value scalar * value scalar) (rs : list (row scalar)) : list (row scalar) :=
  filter (λ r, key_of c1 c2 r = Some k) rs.

(** [groupby([c1, c2])]: the groups in key order, each with its rows in
    table order. *)
Definition groupby (c1 c2 : pystr) (rs : list (row scalar)) : list ((value scalar * value scalar) * list (row scalar)) :=
  (λ k, (k, group_rows c1 c2 k rs)) <$> group_keys c1 c2 rs.

(** ** The store of frames and the monad of the script *)

(** The steps of a run that work outside the tables.  Each of them can
    raise: what the command line, the file system and the plotting
    libraries do is not decided by the tables. *)
Inductive step :=
  | ParseArgs       (* parser.parse_args(), lines 146-149 *)
  | MakeOutdir      (* outdir.mkdir(parents=True, exist_ok=True), line 153 *)
  | SetTheme        (* sns.set_theme(style="whitegrid"), line 157 *)
  | DrawCounts      (* sns.catplot ... plt.savefig, lines 42-61 *)
  | DrawLengths     (* plt.figure ... plt.savefig, lines 69-94 *)
  | DrawCards       (* plt.figure ... plt.savefig, lines 115-141 *)
  | Report.         (* the prints, lines 164-166 *)

Inductive exn :=
  | NoCsvFiles                            (* FileNotFoundError("No CSV files found in ...") *)
  | MissingColumns (missing : gset pystr)  (* ValueError("Missing required columns: ...") *)
  | ReadCsvError (name : pystr)           (* whatever pd.read_csv raised for that path *)
  | NoObjectsToConcatenate                (* ValueError of pd.concat([]) *)
  | KeyError (c : pystr)
  | TypeError
  | StepFailed (s : step)                 (* whatever a step outside the tables raised *)
  | BadRef.                               (* a reference to no object; no run produces one *)

Definition M (A : Type) : Type := store → (exn + A) * store.

Definition ret {A} (a : A) : M A := λ σ, (inr a, σ).
Definition raise {A} (e : exn) : M A := λ σ, (inl e, σ).
Definition bind {A B} (k : A → M B) (m : M A) : M B :=
  λ σ, match m σ with
       | (inr a, σ') => k a σ'
       | (inl e, σ') => (inl e, σ')
       end.

Global Instance M_ret : MRet M := @ret.
Global Instance M_bind : MBind M := @bind.

(** A new object. *)
Definition alloc (df : DataFrame) : M loc := λ σ, (inr (length σ), σ ++ [df]).
Definition deref (l : loc) : M DataFrame :=
  λ σ, match σ !! l with
       | Some df => (inr df, σ)
       | None => (inl BadRef, σ)
       end.
(** In-place update of the object at [l]. *)
Definition mutate (l : loc) (f : DataFrame → DataFrame) : M unit :=
  λ σ, match σ !! l with
       | Some df => (inr (), <[l:=f df]> σ)
       | None => (inl BadRef, σ)
       end.

(** ** pandas calls on objects *)

(** [df[c]] *)
Definition getitem (l : loc) (c : pystr) : M (Series scalar) :=
  df ← deref l;
  if decide (c ∈ columns df) then mret (column c (rows df)) else raise (KeyError c).

(** [df[c] = s] *)
Definition setitem (l : loc) (c : pystr) (s : Series scalar) : M unit :=
  mutate l (set_column c s).

(** [df[c] = v] *)
Definition setitem_value (l : loc) (c : pystr) (v : value scalar) : M unit :=
  mutate l (fill_column c v).

(** [df.copy()] *)
Definition copy (l : loc) : M loc := df ← deref l; alloc df.

(** A [for] loop that collects one result per element. *)
Fixpoint for_each {A B} (f : A → M B) (l : list A) : M (list B) :=
  match l with
  | [] => mret []
  | a :: l' => b ← f a; bs ← for_each f l'; mret (b :: bs)
  end.

(** [pd.concat(dfs, ignore_index=True)] *)
Definition pd_concat (dfs : list loc) : M loc :=
  if dfs is [] then raise NoObjectsToConcatenate
  else frames ← for_each deref dfs; alloc (concat_frames frames).

(** ** The input directory *)

(** What [pd.read_csv] makes of a directory entry: a frame, or an error
    (a directory, an unreadable or empty file, a parse error). *)
Inductive file :=
  | Unreadable
  | Csv (df : DataFrame).

(** A directory: its entries in the order the system lists them. *)
Abbreviation directory := (list (pystr * file)).

(** [data_dir.glob(pat)] *)
Definition glob (data_dir : directory) (pat : pystr) : list (pystr * file) :=
  filter (λ e, glob_match (glob_compile pat) e.1 = true) data_dir.

(** [sorted(paths)]: paths of one directory compare by their names. *)
Definition sorted_paths (paths : list (pystr * file)) : list (pystr * file) :=
  stable_sort (λ a b, str_cmp a.1 b.1) paths.

(** [pd.read_csv(path)] *)
Definition read_csv (path : pystr * file) : M loc :=
  match path.2 with
  | Csv df => alloc df
  | Unreadable => raise (ReadCsvError path.1)
  end.

(** ** load_data *)

Definition language : pystr := lit "language".
Definition word : pystr := lit "word".
Definition sense_id : pystr := lit "sense_id".
Definition meaning : pystr := lit "meaning".
Definition ipa : pystr := lit "ipa".
Definition source_file : pystr := lit "source_file".
Definition ipa_len : pystr := lit "ipa_len".

Definition required : gset pystr :=
  list_to_set [language; word; sense_id; meaning; ipa].

(** The body of the loop over the input files. *)
Definition read_and_tag (path : pystr * file) : M loc :=
  df ← read_csv path;
  setitem_value df source_file (Str path.1);;
  mret df.

(** [data[c] = data[c].astype(str).str.strip()] *)
Definition normalize_column (data : loc) (c : pystr) : M unit :=
  s ← getitem data c;
  setitem data c (str_strip (astype_str s)).

(** The normalisation pass: the three assignments under [# Normalize]. *)
Definition normalize (data : loc) : M unit :=
  normalize_column data word;;
  normalize_column data language;;
  normalize_column data ipa.

Definition load_data (data_dir : directory) : M loc :=
  dfs ← for_each read_and_tag (sorted_paths (glob data_dir (lit "heteronyms_*.csv")));
  if dfs is [] then raise NoCsvFiles
  else
    data ← pd_concat dfs;
    df ← deref data;
    let missing := required ∖ list_to_set (columns df) in
    if decide (missing = ∅) then normalize data;; mret data
    else raise (MissingColumns missing).

(** ** plot_variant_counts *)

(** A row of [counts]: the group's key and its two aggregates. *)
Record counts_row := {
  c_language : value scalar;
  c_word : value scalar;
  n_variants : nat;
  n_senses : nat;
}.

(** [KeyError] unless the frame has every column of [cs]. *)
Fixpoint check_columns (df : DataFrame) (cs : list pystr) : M unit :=
  match cs with
  | [] => mret ()
  | c :: cs' =>
      if decide (c ∈ columns df) then check_columns df cs' else raise (KeyError c)
  end.

(** [.agg(n_variants=("ipa", "nunique"), n_senses=("sense_id", "nunique"))] *)
Definition agg_counts (g : (value scalar * value scalar) * list (row scalar)) : counts_row :=
  {| c_language := g.1.1; c_word := g.1.2;
     n_variants := nunique (column ipa g.2);
     n_senses := nunique (column sense_id g.2) |}.

(** [sort_values(["language", "n_variants", "n_senses", "word"],
    ascending=[True, False, False, True])] *)
Definition counts_cmp (a b : counts_row) : comparison :=
  cmp_then (value_cmp (c_language a) (c_language b))
    (cmp_then (n_variants b ?= n_variants a)
       (cmp_then (n_senses b ?= n_senses a)
          (value_cmp (c_word a) (c_word b)))).

(** Returns [counts], the table given to [sns.catplot]. *)
Definition plot_variant_counts (data : loc) : M (list counts_row) :=
  df ← deref data;
  check_columns df [language; word; ipa; sense_id];;
  let counts := agg_counts <$> groupby language word (rows df) in
  mret (stable_sort counts_cmp counts).

(** ** plot_ipa_length *)

(** Returns [tmp], the frame given to [sns.stripplot] and [sns.boxplot]. *)
Definition plot_ipa_length (data : loc) : M loc :=
  tmp ← copy data;
  s ← getitem tmp ipa;
  setitem tmp ipa_len (str_len s);;
  mret tmp.

(** ** plot_word_cards *)

(** A row of [words]. *)
Record words_row := {
  w_language : value scalar;
  w_word : value scalar;
  w_n_variants : nat;
}.

(** [.agg(n_variants=("ipa", "nunique"))] *)
Definition agg_words (g : (value scalar * value scalar) * list (row scalar)) : words_row :=
  {| w_language := g.1.1; w_word := g.1.2;
     w_n_variants := nunique (column ipa g.2) |}.

(** [sort_values(["n_variants", "language", "word"],
    ascending=[False, True, True])] *)
Definition words_cmp (a b : words_row) : comparison :=
  cmp_then (w_n_variants b ?= w_n_variants a)
    (cmp_then (value_cmp (w_language a) (w_language b))
       (value_cmp (w_word a) (w_word b))).

(** An element of the list [rows]: what one card shows. *)
Record card := {
  card_language : value scalar;
  card_word : value scalar;
  card_ipas : list (value scalar);
  card_meanings : list (value scalar * value scalar);
}.

Definition is_str (v : value scalar) : bool := if v is Str _ then true else false.

(** Python's [sorted] on cell values: strings and numbers do not compare. *)
Definition py_sorted (l : list (value scalar)) : M (list (value scalar)) :=
  if forallb is_str l || forallb (λ v, negb (is_str v)) l
  then mret (stable_sort value_cmp l)
  else raise TypeError.

(** [data[(data["language"] == lang) & (data["word"] == wd)]] *)
Definition subset_rows (lang wd : value scalar) (rs : list (row scalar)) : list (row scalar) :=
  filter (λ r : row scalar, r !! language = Some lang ∧ r !! word = Some wd) rs.

(** [subset[["ipa", "meaning"]].dropna()]: the pairs with neither part
    missing. *)
Definition ipa_meaning_pairs (rs : list (row scalar)) : list (value scalar * value scalar) :=
  omap (key_of ipa meaning) rs.

(** The body of the loop over [words.iterrows()]. *)
Definition card_of (data : loc) (r : words_row) : M card :=
  df ← deref data;
  check_columns df [language; word];;
  let subset := subset_rows (w_language r) (w_word r) (rows df) in
  check_columns df [ipa];;
  ipas ← py_sorted (unique (dropna (column ipa subset)));
  check_columns df [ipa; meaning];;
  let meanings := stable_sort pair_cmp (unique (ipa_meaning_pairs subset)) in
  mret {| card_language := w_language r; card_word := w_word r;
          card_ipas := ipas; card_meanings := meanings |}.

(** [words], the selected groups. *)
Definition select_words (data : loc) (max_words : Z) : M (list words_row) :=
  df ← deref data;
  check_columns df [language; word; ipa];;
  mret (head max_words
          (stable_sort words_cmp (agg_words <$> groupby language word (rows df)))).

(** Returns the list [rows] of cards that the figure is drawn from. *)
Definition plot_word_cards (data : loc) (max_words : Z) : M (list card) :=
  words ← select_words data max_words;
  for_each (card_of data) words.

(** ** main *)

(** What the world outside the tables does in one run: the steps that
    raise. *)
Definition world : Type := step → bool.

(** A step outside the tables: it raises or goes through, and leaves the
    tables alone. *)
Definition outside (w : world) (s : step) : M unit :=
  if w s then raise (StepFailed s) else mret ().

(** The calls of [main] in their order.  A call of a plot function is the
    table part modelled above followed by its drawing and saving. *)
Definition main (w : world) (data_dir : directory) : M (list counts_row * loc * list card) :=
  outside w ParseArgs;;
  outside w MakeOutdir;;
  data ← load_data data_dir;
  outside w SetTheme;;
  counts ← plot_variant_counts data;
  outside w DrawCounts;;
  tmp ← plot_ipa_length data;
  outside w DrawLengths;;
  cards ← plot_word_cards data 12;
  outside w DrawCards;;
  outside w Report;;
  mret (counts, tmp, cards).
End model.

Arguments DataFrame scalar : clear implicits.
Arguments exn : clear implicits.
Arguments M scalar A : clear implicits.
Arguments file scalar : clear implicits.
Arguments counts_row scalar : clear implicits.
Arguments words_row scalar : clear implicits.
Arguments card scalar : clear implicits.

Abbreviation store scalar := (list (DataFrame scalar)).
Abbreviation directory scalar := (list (pystr * file scalar)).

(** ** Vocabulary of the statements *)

(** A file name of the form [heteronyms_*.csv]. *)
Definition matches_pattern (name : pystr) : Prop :=
  ∃ mid, name = lit "heteronyms_" ++ mid ++ lit ".csv".

Section vocabulary.
Context `{Scalar scalar}.

(** An input file of the run: an entry of the directory whose name
    matches the pattern. *)
Definition input_file (data_dir : directory scalar) (p : pystr * file scalar) : Prop :=
  p ∈ data_dir ∧ matches_pattern p.1.

(** [pd.read_csv] makes a frame of the entry. *)
Definition readable (p : pystr * file scalar) : Prop := ∃ df, p.2 = Csv df.

(** The matching files in the order [load_data] reads them. *)
Definition input_files (data_dir : directory scalar) : list (pystr * file scalar) :=
  sorted_paths (glob data_dir (lit "heteronyms_*.csv")).

Definition csv_frame (p : pystr * file scalar) : option (DataFrame scalar) :=
  match p.2 with
  | Csv df => Some df
  | Unreadable => None
  end.

(** The frame read from a path, with its [source_file] column. *)
Definition tagged_frame (p : pystr * file scalar) : option (DataFrame scalar) :=
  fill_column source_file (Str p.1) <$> csv_frame p.

(** The rows of a file as they are in the file. *)
Definition file_rows (p : pystr * file scalar) : list (row scalar) :=
  match p.2 with
  | Csv df => rows df
  | Unreadable => []
  end.

Definition file_columns (p : pystr * file scalar) : list pystr :=
  match p.2 with
  | Csv df => columns df
  | Unreadable => []
  end.

(** One column of one row after [astype(str).str.strip()]. *)
Definition norm_cell (c : pystr) (r : row scalar) : row scalar :=
  <[c := Str (strip (py_str (r !! c)))]> r.

Definition norm_column (c : pystr) (df : DataFrame scalar) : DataFrame scalar :=
  {| columns := columns df; rows := norm_cell c <$> rows df |}.

(** The cell of column [c] is a stripped string. *)
Definition normal (c : pystr) (r : row scalar) : Prop :=
  ∃ s, r !! c = Some (Str s) ∧ strip s = s.

Definition normalize_row (r : row scalar) : row scalar :=
  norm_cell ipa (norm_cell language (norm_cell word r)).

Definition normalize_frame (df : DataFrame scalar) : DataFrame scalar :=
  {| columns := columns df; rows := normalize_row <$> rows df |}.

(** The rows of the input files, tagged, one file after the other. *)
Definition tagged_rows (paths : list (pystr * file scalar)) : list (row scalar) :=
  p ← paths; (λ r : row scalar, <[source_file := Str p.1]> r) <$> file_rows p.

(** What a tagged input row becomes in the loaded table; [ctx] is the
    list of all tagged input rows, which decides the dtype of a column. *)
Definition loaded_row (ctx : list (row scalar)) (r : row scalar) : row scalar :=
  normalize_row (promote_row ctx r).

(** The rows of the table [load_data] returns for a directory. *)
Definition loaded_rows (data_dir : directory scalar) : list (row scalar) :=
  let ctx := tagged_rows (input_files data_dir) in
  loaded_row ctx <$> ctx.

(** The rows of the group of [lang] and [wd]. *)
Definition in_group (lang wd : value scalar) (r : row scalar) : Prop :=
  r !! language = Some lang ∧ r !! word = Some wd.

(** [n] is the number of distinct values in [l]. *)
Definition distinct_count {A} (l : list A) (n : nat) : Prop :=
  ∃ e, NoDup e ∧ (∀ x, x ∈ e ↔ x ∈ l) ∧ n = length e.

(** [n] is the number of distinct values, missing ones apart, that
    column [c] has in the rows of the group of [lang] and [wd]. *)
Definition group_distinct (rs : list (row scalar)) (lang wd : value scalar)
    (c : pystr) (n : nat) : Prop :=
  ∃ e, NoDup e ∧
       (∀ v, v ∈ e ↔ ∃ r, r ∈ rs ∧ in_group lang wd r ∧ r !! c = Some v) ∧
       n = length e.

Definition counts_key (a : counts_row scalar) : value scalar * value scalar :=
  (c_language a, c_word a).

Definition words_key (a : words_row scalar) : value scalar * value scalar :=
  (w_language a, w_word a).

Definition card_key (a : card scalar) : value scalar * value scalar :=
  (card_language a, card_word a).

(** The card of a selected group, as the loop of [plot_word_cards]
    builds it from the rows of the table. *)
Definition make_card (rs : list (row scalar)) (w : words_row scalar) : card scalar :=
  let subset := subset_rows (w_language w) (w_word w) rs in
  {| card_language := w_language w; card_word := w_word w;
     card_ipas := stable_sort value_cmp (unique (dropna (column ipa subset)));
     card_meanings := stable_sort pair_cmp (unique (ipa_meaning_pairs subset)) |}.

(** Both parts of a key are strings. *)
Definition str_key (k : value scalar * value scalar) : Prop :=
  is_str k.1 ∧ is_str k.2.

Definition value_lt (a b : value scalar) : Prop := value_cmp a b = Lt.

(** [a] stands before [b] in [counts]: language ascending, then variant
    count descending, then sense count descending, then word ascending. *)
Definition counts_before (a b : counts_row scalar) : Prop :=
  value_lt (c_language a) (c_language b) ∨
  c_language a = c_language b ∧
  (n_variants a > n_variants b ∨
   n_variants a = n_variants b ∧
   (n_senses a > n_senses b ∨
    n_senses a = n_senses b ∧ value_lt (c_word a) (c_word b))).

(** [a] stands before [b] in [words]: variant count descending, then
    language ascending, then word ascending. *)
Definition words_before (a b : words_row scalar) : Prop :=
  w_n_variants a > w_n_variants b ∨
  w_n_variants a = w_n_variants b ∧
  (value_lt (w_language a) (w_language b) ∨
   w_language a = w_language b ∧ value_lt (w_word a) (w_word b)).

(** [a] may stand before [b] among the meaning lines: by ipa, then by
    meaning. *)
Definition pair_before (a b : value scalar * value scalar) : Prop :=
  value_lt a.1 b.1 ∨ a.1 = b.1 ∧ cmp_le value_cmp a.2 b.2.
End vocabulary.

(** ** Vocabulary of the further statements *)

(** No whitespace at either end. *)
Definition trimmed (t : pystr) : Prop :=
  (∀ c t', t = c :: t' → py_isspace c = false) ∧
  (∀ t' c, t = t' ++ [c] → py_isspace c = false).

(** [t] is [s] without some whitespace at its two ends. *)
Definition trim_of (s t : pystr) : Prop :=
  ∃ a b, s = a ++ t ++ b ∧
         Forall (λ c, py_isspace c = true) a ∧ Forall (λ c, py_isspace c = true) b.

Section more_vocabulary.
Context `{Scalar scalar}.

(** The table of all groups in the order of [plot_word_cards], before
    [head] cuts it. *)
Definition ranked_words (rs : list (row scalar)) : list (words_row scalar) :=
  stable_sort words_cmp (agg_words <$> groupby language word rs).
(** The rows of the input files as they are in the files, before the
    script touches them, each with the name of its file; one file after
    the other. *)
Definition named_rows (paths : list (pystr * file scalar)) : list (pystr * row scalar) :=
  p ← paths; (λ r : row scalar, (p.1, r)) <$> file_rows p.
End more_vocabulary.

(** ** A concrete instance and sample data *)

(** Integer cells: the instance the sample tables below are written in.
    No cast is needed when every numeric column holds integers only. *)
Global Instance Z_scalar : Scalar Z := {|
  scalar_str z := lit (pretty z);
  scalar_cmp := Z.compare;
  scalar_of_nat := Z.of_nat;
  promote _ z := z;
|}.

Definition mk_row (lang wd : pystr) (sense : Z) (gloss ip : pystr) : row Z :=
  <[language := Str lang]> (<[word := Str wd]> (<[sense_id := Num sense]>
    (<[meaning := Str gloss]> (<[ipa := Str ip]> ∅)))).

Definition five_columns : list pystr := [language; word; sense_id; meaning; ipa].

(** The two files of the end-to-end scenario of the specification:
    (en, read, 1, present tense, ri:d), (en, read, 2, past tense, rEd) and
    (sv, banan, 1, fruit, ban'A:n), the IPA strings by their code points. *)
Definition ipa_riid : pystr := [114; 105; 720; 100]%N.
Definition ipa_red : pystr := [114; 603; 100]%N.
Definition ipa_banan : pystr := [98; 97; 110; 712; 593; 720; 110]%N.

Definition file_en : DataFrame Z :=
  {| columns := five_columns;
     rows := [mk_row (lit "en") (lit "read") 1 (lit "present tense") ipa_riid;
              mk_row (lit "en") (lit "read") 2 (lit "past tense") ipa_red] |}.

Definition file_sv : DataFrame Z :=
  {| columns := five_columns;
     rows := [mk_row (lit "sv") (lit "banan") 1 (lit "fruit") ipa_banan] |}.

Definition sample_dir : directory Z :=
  [(lit "heteronyms_sv.csv", Csv file_sv);
   (lit "notes.txt", Unreadable);
   (lit "heteronyms_en.csv", Csv file_en)].


(** A table in which the word [read] has one sense and two pronunciations,
    the first row twice. *)
Definition scenario_table : DataFrame Z :=
  {| columns := five_columns;
     rows := [mk_row (lit "en") (lit "read") 1 (lit "to read") ipa_riid;
              mk_row (lit "en") (lit "read") 1 (lit "to read") ipa_red;
              mk_row (lit "en") (lit "read") 1 (lit "to read") ipa_riid] |}.

(** A file whose second row has no ipa and whose word is padded with
    blanks. *)
Definition file_gap : DataFrame Z :=
  {| columns := five_columns;
     rows := [mk_row (lit "en") (lit "lead") 1 (lit "metal") ipa_red;
              delete ipa (mk_row (lit "en") (lit " lead ") 2 (lit "to guide") ipa_red)] |}.

Definition gap_dir : directory Z := [(lit "heteronyms_gap.csv", Csv file_gap)].

(** A directory whose first input file in name order cannot be read. *)
Definition broken_dir : directory Z :=
  [(lit "heteronyms_b.csv", Csv file_sv);
   (lit "heteronyms_a.csv", Unreadable);
   (lit "heteronyms_c.csv", Unreadable)].

(** The scenario table with one more row, which has no language. *)
Definition keyless_table : DataFrame Z :=
  {| columns := five_columns;
     rows := rows scenario_table ++
             [delete language (mk_row (lit "en") (lit "read") 3 (lit "to read") ipa_red)] |}.

(** A file that has a [source_file] column of its own, and one more
    column. *)
Definition file_own_tag : DataFrame Z :=
  {| columns := five_columns ++ [source_file; lit "note"];
     rows := [<[source_file := Str (lit "wiktionary")]>
                (<[lit "note" := Str (lit " checked ")]>
                   (mk_row (lit "en") (lit "read") 1 (lit "present tense") ipa_riid));
              <[source_file := Str (lit "wiktionary")]>
                (mk_row (lit "en") (lit "read") 2 (lit "past tense") ipa_red)] |}.

Definition own_tag_dir : directory Z := [(lit "heteronyms_x.csv", Csv file_own_tag)].

(** ** Proof steps *)

(** Column names are told apart by evaluation. *)
Ltac names_ne := let E := fresh in intros E; vm_compute in E; discriminate E.
(** * Properties *)

(** ** Stripping *)

Lemma lstrip_idemp s : lstrip (lstrip s) = lstrip s.
Proof.
  induction s as [|c s IH]; simpl; [done|].
  destruct (py_isspace c) eqn:E; [done|]. simpl. by rewrite E.
Qed.

Lemma rstrip_idemp s : rstrip (rstrip s) = rstrip s.
Proof.
  induction s as [|c s IH]; simpl; [done|].
  destruct (rstrip s) as [|d t] eqn:E.
  - destruct (py_isspace c) eqn:Ec; simpl; [done|]. by rewrite Ec.
  - simpl in *. by rewrite IH.
Qed.

Lemma lstrip_head s : match lstrip s with [] => True | c :: _ => py_isspace c = false end.
Proof.
  induction s as [|c s IH]; simpl; [done|].
  destruct (py_isspace c) eqn:E; [done|]. simpl. done.
Qed.

Lemma rstrip_head c s : py_isspace c = false → ∃ t, rstrip (c :: s) = c :: t.
Proof.
  intros Hc. simpl. destruct (rstrip s); rewrite ?Hc; eauto.
Qed.

Lemma strip_idemp s : strip (strip s) = strip s.
Proof.
  unfold strip. pose proof (lstrip_head s) as Hh.
  destruct (lstrip s) as [|c t] eqn:E; [done|].
  destruct (rstrip_head c t Hh) as [u Hu]. rewrite Hu.
  assert (lstrip (c :: u) = c :: u) as -> by (simpl; by rewrite Hh).
  rewrite <- Hu. apply rstrip_idemp.
Qed.

(** ** Comparisons *)

Section cmp_facts.
Context {A} (P : A → Prop) (c : A → A → comparison) `{!TotalCmpOn P c}.

Lemma cmp_le_total a b : P a → P b → c a b = Gt → cmp_le c b a.
Proof.
  unfold cmp_le. intros Ha Hb E. rewrite (cmp_opp (c:=c) a b Ha Hb), E. done.
Qed.

Lemma cmp_gt_lt a b : P a → P b → c a b = Gt ↔ c b a = Lt.
Proof.
  intros Ha Hb. rewrite (cmp_opp (c:=c) a b Ha Hb).
  destruct (c a b); simpl; split; congruence.
Qed.

Lemma cmp_eq_sym a b : P a → P b → c a b = Eq → c b a = Eq.
Proof. intros Ha Hb E. by rewrite (cmp_opp (c:=c) a b Ha Hb), E. Qed.

Lemma cmp_le_trans a b d :
  P a → P b → P d → cmp_le c a b → cmp_le c b d → cmp_le c a d.
Proof.
  unfold cmp_le. intros Ha Hb Hd Hab Hbd Had.
  destruct (c a b) eqn:Eab; [| |done].
  - rewrite (cmp_eq_l (c:=c) a b d Ha Hb Hd Eab) in Had. done.
  - destruct (c b d) eqn:Ebd; [| |done].
    + apply cmp_eq_sym in Ebd; [|done..]. apply cmp_gt_lt in Had; [|done..].
      rewrite (cmp_eq_l (c:=c) d b a Hd Hb Ha Ebd) in Had.
      apply cmp_gt_lt in Had; [|done..]. congruence.
    + rewrite (cmp_lt_trans (c:=c) a b d Ha Hb Hd Eab Ebd) in Had. done.
Qed.
End cmp_facts.

Lemma N_compare_total : TotalCmp N.compare.
Proof.
  split.
  - intros a b _ _. apply N.compare_antisym.
  - intros a b d _ _ _. rewrite !N.compare_lt_iff. lia.
  - intros a b d _ _ _ ->%N.compare_eq. done.
Qed.

Lemma Nat_compare_total : TotalCmp Nat.compare.
Proof.
  split.
  - intros a b _ _. apply Nat.compare_antisym.
  - intros a b d _ _ _. rewrite !Nat.compare_lt_iff. lia.
  - intros a b d _ _ _ ->%Nat.compare_eq. done.
Qed.

Lemma Z_compare_total : TotalCmp Z.compare.
Proof.
  split.
  - intros a b _ _. apply Z.compare_antisym.
  - intros a b d _ _ _. rewrite !Z.compare_lt_iff. lia.
  - intros a b d _ _ _ ->%Z.compare_eq. done.
Qed.

(** Lexicographic combination, projection and reversal keep the laws. *)
Lemma TotalCmp_then {A} (P : A → Prop) (c1 c2 : A → A → comparison) :
  TotalCmpOn P c1 → TotalCmpOn P c2 →
  TotalCmpOn P (λ a b, cmp_then (c1 a b) (c2 a b)).
Proof.
  intros H1 H2. split.
  - intros a b Ha Hb.
    rewrite (cmp_opp (c:=c1) a b Ha Hb), (cmp_opp (c:=c2) a b Ha Hb).
    by destruct (c1 a b).
  - intros a b d Ha Hb Hd. unfold cmp_then.
    destruct (c1 a b) eqn:Eab; [| |done].
    + rewrite (cmp_eq_l (c:=c1) a b d Ha Hb Hd Eab). intros E2 Hbd.
      destruct (c1 b d); [|done|done].
      by apply (cmp_lt_trans (c:=c2) a b d).
    + intros _. destruct (c1 b d) eqn:Ebd; [| |done].
      * intros _. apply (cmp_eq_sym P c1) in Ebd; [|done..].
        apply (cmp_gt_lt P c1) in Eab; [|done..].
        rewrite <- (cmp_eq_l (c:=c1) d b a Hd Hb Ha Ebd) in Eab.
        apply (cmp_gt_lt P c1) in Eab; [|done..]. by rewrite Eab.
      * intros _. by rewrite (cmp_lt_trans (c:=c1) a b d Ha Hb Hd Eab Ebd).
  - intros a b d Ha Hb Hd. unfold cmp_then.
    destruct (c1 a b) eqn:Eab; [|done|done].
    intros E2. rewrite (cmp_eq_l (c:=c1) a b d Ha Hb Hd Eab).
    destruct (c1 b d); [|done|done].
    by apply (cmp_eq_l (c:=c2)).
Qed.

Lemma TotalCmp_on {A B} (P : A → Prop) (Q : B → Prop) (f : A → B)
    (c : B → B → comparison) :
  TotalCmpOn Q c → (∀ a, P a → Q (f a)) → TotalCmpOn P (λ a b, c (f a) (f b)).
Proof.
  intros Hc Hf. split.
  - intros a b Ha Hb. apply (cmp_opp (c:=c)); auto.
  - intros a b d Ha Hb Hd. apply (cmp_lt_trans (c:=c)); auto.
  - intros a b d Ha Hb Hd. apply (cmp_eq_l (c:=c)); auto.
Qed.

Lemma TotalCmp_flip {A} (P : A → Prop) (c : A → A → comparison) :
  TotalCmpOn P c → TotalCmpOn P (λ a b, c b a).
Proof.
  intros Hc. split.
  - intros a b Ha Hb. by apply (cmp_opp (c:=c)).
  - intros a b d Ha Hb Hd E1 E2. by apply (cmp_lt_trans (c:=c) d b a).
  - intros a b d Ha Hb Hd E. simpl in E. apply (cmp_eq_sym P c) in E; [|done..].
    rewrite (cmp_opp (c:=c) a d Ha Hd), (cmp_opp (c:=c) b d Hb Hd). f_equal.
    by apply (cmp_eq_l (c:=c)).
Qed.

Lemma str_cmp_eq a b : str_cmp a b = Eq → a = b.
Proof.
  revert b. induction a as [|x a IH]; intros [|y b]; simpl; try done.
  unfold cmp_then. destruct (x ?= y)%N eqn:E; try done.
  apply N.compare_eq in E. intros ?%IH. congruence.
Qed.

Lemma str_cmp_refl a : str_cmp a a = Eq.
Proof. induction a as [|x a IH]; simpl; [done|]. by rewrite N.compare_refl. Qed.

Lemma str_cmp_total : TotalCmp str_cmp.
Proof.
  split.
  - intros a b _ _. revert b. induction a as [|x a IH]; intros [|y b]; simpl; try done.
    rewrite (N.compare_antisym x y), IH. by destruct (x ?= y)%N.
  - intros a b d _ _ _. revert b d.
    induction a as [|x a IH]; intros [|y b] [|z d]; simpl; try done.
    unfold cmp_then.
    destruct (x ?= y)%N eqn:Exy; [| |done].
    + apply N.compare_eq in Exy as ->. destruct (y ?= z)%N; [|done|done]. apply IH.
    + intros _. destruct (y ?= z)%N eqn:Eyz; [| |done].
      * apply N.compare_eq in Eyz as <-. by rewrite Exy.
      * intros _. by rewrite (N.lt_trans _ _ _ Exy Eyz).
  - intros a b d _ _ _ ->%str_cmp_eq. done.
Qed.

(** The order of [str_cmp] is the lexicographic one: [a] is before [b] when
    [a] is a proper prefix of [b] or the two differ first at a position
    where [a] has the smaller code point. *)
Lemma str_cmp_lt a b :
  str_cmp a b = Lt ↔
  (∃ y t, b = a ++ y :: t) ∨
  (∃ p x y s t, a = p ++ x :: s ∧ b = p ++ y :: t ∧ (x < y)%N).
Proof.
  revert b. induction a as [|x a IH]; intros [|y b]; simpl.
  - split; [done|]. intros [(?&?&?)|(p&?&?&?&?&?&?&?)]; [done|]. by destruct p.
  - split; [eauto|done].
  - split; [done|]. intros [(?&?&?)|(p&?&?&?&?&?&?&?)]; [done|]. by destruct p.
  - unfold cmp_then. destruct (x ?= y)%N eqn:E.
    + apply N.compare_eq in E as ->. rewrite IH. split.
      * intros [(z&t&->)|(p&x&z&s&t&->&->&?)]; [left; eauto|].
        right. exists (y :: p), x, z, s, t. done.
      * intros [(z&t&[= ->])|(p&x&z&s&t&E1&E2&?)]; [left; eauto|].
        destruct p as [|q p]; simplify_eq/=; [lia|]. right. naive_solver.
    + apply N.compare_lt_iff in E. split; [intros _|done].
      right. by exists [], x, y, a, b.
    + apply N.compare_gt_iff in E. split; [done|].
      intros [(z&t&[= -> ->])|(p&x'&z&s&t&E1&E2&?)]; [lia|].
      destruct p as [|q p]; simplify_eq/=; lia.
Qed.

(** ** Sorting *)

Section sort_facts.
Context {A} (c : A → A → comparison).

Lemma insert_sorted_perm x l : insert_sorted c x l ≡ₚ x :: l.
Proof.
  induction l as [|y l IH]; simpl; [done|].
  destruct (c x y); [done|done|]. rewrite IH. apply perm_swap.
Qed.

Lemma stable_sort_perm l : stable_sort c l ≡ₚ l.
Proof.
  induction l as [|x l IH]; simpl; [done|].
  by rewrite insert_sorted_perm, IH.
Qed.

Lemma elem_of_stable_sort x l : x ∈ stable_sort c l ↔ x ∈ l.
Proof. by rewrite stable_sort_perm. Qed.

Lemma length_stable_sort l : length (stable_sort c l) = length l.
Proof. by rewrite stable_sort_perm. Qed.

(** Sorting a list of elements on which the comparison is a total
    preorder sorts it. *)
Context (P : A → Prop) `{!TotalCmpOn P c}.

Lemma insert_sorted_sorted x l :
  P x → Forall P l →
  StronglySorted (cmp_le c) l → StronglySorted (cmp_le c) (insert_sorted c x l).
Proof.
  intros Hx HP. induction 1 as [|y l Hl IH Hy]; simpl; [repeat constructor|].
  apply Forall_cons in HP as [Py HP].
  assert (c x y ≠ Gt → StronglySorted (cmp_le c) (x :: y :: l)) as Hbefore.
  { intros Hxy. constructor; [by constructor|]. constructor; [done|].
    rewrite Forall_forall in Hy, HP |- *. intros z Hz.
    apply (cmp_le_trans P c x y z); auto. }
  destruct (c x y) eqn:E; [by apply Hbefore|by apply Hbefore|].
  constructor; [by apply IH|]. rewrite insert_sorted_perm.
  constructor; [|done]. by apply (cmp_le_total P c).
Qed.

Lemma stable_sort_sorted l :
  Forall P l → StronglySorted (cmp_le c) (stable_sort c l).
Proof.
  induction 1 as [|x l Hx HP IH]; simpl; [constructor|].
  apply insert_sorted_sorted; [done| |done]. by rewrite stable_sort_perm.
Qed.
End sort_facts.

(** A sorted list without two elements of the same key is strictly sorted. *)
Lemma StronglySorted_NoDup_key {A K} (R : relation A) (f : A → K) l :
  StronglySorted R l → NoDup (f <$> l) →
  StronglySorted (λ a b, R a b ∧ f a ≠ f b) l.
Proof.
  induction 1 as [|x l Hl IH Hx]; simpl; [constructor|].
  intros [Hnin Hnd]%NoDup_cons. constructor; [auto|].
  rewrite Forall_forall in Hx |- *. intros y Hy. split; [auto|].
  intros E. apply Hnin. rewrite E. by apply list_elem_of_fmap_2.
Qed.

(** ** First occurrences *)

Section unique_facts.
Context `{EqDecision A}.
Implicit Types l seen : list A.

Lemma elem_of_unique_from x seen l :
  x ∈ unique_from seen l ↔ x ∈ l ∧ x ∉ seen.
Proof.
  revert seen. induction l as [|y l IH]; intros seen; simpl.
  - rewrite elem_of_nil. tauto.
  - case_decide as Hy.
    + rewrite IH, elem_of_cons. clear IH.
      split; [tauto|]. intros [[->|?] ?]; [contradiction|tauto].
    + rewrite !elem_of_cons, IH, elem_of_cons. clear IH.
      destruct (decide (x = y)) as [->|Hne]; [tauto|].
      split; [|tauto]. intros [->|[? ?]]; tauto.
Qed.

Lemma NoDup_unique_from seen l : NoDup (unique_from seen l).
Proof.
  revert seen. induction l as [|y l IH]; intros seen; simpl; [constructor|].
  case_decide; [done|]. constructor; [|done].
  rewrite elem_of_unique_from, elem_of_cons. tauto.
Qed.

Lemma elem_of_unique x l : x ∈ unique l ↔ x ∈ l.
Proof. unfold unique. rewrite elem_of_unique_from, elem_of_nil. tauto. Qed.

Lemma NoDup_unique l : NoDup (unique l).
Proof. apply NoDup_unique_from. Qed.
End unique_facts.

(** ** Lists in step *)

Lemma Forall2_elem_of_l {A B} (P : A → B → Prop) l k x :
  Forall2 P l k → x ∈ l → ∃ y, y ∈ k ∧ P x y.
Proof.
  induction 1 as [|a b l k Hab _ IH]; [by intros ?%elem_of_nil|].
  intros [->|Hx]%elem_of_cons.
  - exists b. split; [left|done].
  - destruct (IH Hx) as (y & ? & ?). exists y. split; [by right|done].
Qed.

Lemma Forall2_elem_of_r {A B} (P : A → B → Prop) l k y :
  Forall2 P l k → y ∈ k → ∃ x, x ∈ l ∧ P x y.
Proof.
  induction 1 as [|a b l k Hab _ IH]; [by intros ?%elem_of_nil|].
  intros [->|Hy]%elem_of_cons.
  - exists a. split; [left|done].
  - destruct (IH Hy) as (x & ? & ?). exists x. split; [by right|done].
Qed.

(** ** File name patterns *)

Lemma glob_match_chars pre pat s :
  glob_match ((GChar <$> pre) ++ pat) s = true ↔
  ∃ s', s = pre ++ s' ∧ glob_match pat s' = true.
Proof.
  revert s. induction pre as [|c pre IH]; intros s; simpl.
  - naive_solver.
  - destruct s as [|x s]; [naive_solver|].
    rewrite andb_true_iff, N.eqb_eq, IH. naive_solver.
Qed.

Lemma glob_match_star pat s :
  glob_match (GStar :: pat) s = true ↔
  ∃ mid s', s = mid ++ s' ∧ glob_match pat s' = true.
Proof.
  simpl. induction s as [|x s IH].
  - rewrite orb_false_r. split; [by exists [], []|].
    intros (mid & s' & E & ?). symmetry in E. apply app_eq_nil in E as [-> ->]. done.
  - rewrite orb_true_iff, IH. split.
    + intros [?|(mid & s' & -> & ?)]; [by exists [], (x :: s)|].
      by exists (x :: mid), s'.
    + intros ([|y mid] & s' & E & ?); simplify_eq/=; [by left|]. right. eauto.
Qed.

Lemma glob_match_literal q s : glob_match (GChar <$> q) s = true ↔ s = q.
Proof.
  rewrite <- (app_nil_r (GChar <$> q)), glob_match_chars. simpl. split.
  - intros (s' & -> & E). destruct s'; [by rewrite app_nil_r|done].
  - intros ->. exists []. by rewrite app_nil_r.
Qed.

(** The names the pattern of [load_data] matches. *)
Lemma glob_match_heteronyms name :
  glob_match (glob_compile (lit "heteronyms_*.csv")) name = true ↔
  ∃ mid, name = lit "heteronyms_" ++ mid ++ lit ".csv".
Proof.
  change (glob_compile (lit "heteronyms_*.csv"))
    with ((GChar <$> lit "heteronyms_") ++ GStar :: (GChar <$> lit ".csv")).
  rewrite glob_match_chars. setoid_rewrite glob_match_star.
  setoid_rewrite glob_match_literal. naive_solver.
Qed.

(** ** Running the script *)

Section run_facts.
Context `{Scalar scalar}.
Implicit Types (σ : store scalar) (df : DataFrame scalar) (r : row scalar).
Implicit Types (rs : list (row scalar)) (c : pystr) (l : loc).

Lemma bind_run {A B} (m : M scalar A) (k : A → M scalar B) σ :
  (m ≫= k) σ =
  match m σ with
  | (inr a, σ') => k a σ'
  | (inl e, σ') => (inl e, σ')
  end.
Proof. done. Qed.

Lemma for_each_cons {A B} (f : A → M scalar B) a (l : list A) σ :
  for_each f (a :: l) σ =
  match f a σ with
  | (inr b, σ') =>
      match for_each f l σ' with
      | (inr bs, σ'') => (inr (b :: bs), σ'')
      | (inl e, σ'') => (inl e, σ'')
      end
  | (inl e, σ') => (inl e, σ')
  end.
Proof.
  simpl. rewrite bind_run. destruct (f a σ) as [[e|b] σ']; [done|].
  rewrite bind_run. by destruct (for_each f l σ') as [[e|bs] σ''].
Qed.

Lemma deref_all_run (ls : list loc) (frames : list (DataFrame scalar)) σ :
  Forall2 (λ l df, σ !! l = Some df) ls frames →
  for_each deref ls σ = (inr frames, σ).
Proof.
  induction 1 as [|l df ls frames Hl _ IH]; [done|].
  rewrite for_each_cons. unfold deref at 1. by rewrite Hl, IH.
Qed.

Lemma lookup_seq_app σ (frames : list (DataFrame scalar)) :
  Forall2 (λ l df, (σ ++ frames) !! l = Some df) (seq (length σ) (length frames)) frames.
Proof.
  revert σ. induction frames as [|df frames IH]; intros σ; simpl; [constructor|].
  constructor.
  - by rewrite list_lookup_middle.
  - specialize (IH (σ ++ [df])). rewrite length_app, <- app_assoc in IH.
    simpl in IH. by rewrite Nat.add_1_r in IH.
Qed.

Lemma read_and_tag_run (p : pystr * file scalar) σ :
  read_and_tag p σ =
  match tagged_frame p with
  | Some df => (inr (length σ), σ ++ [df])
  | None => (inl (ReadCsvError p.1), σ)
  end.
Proof.
  unfold read_and_tag, read_csv, tagged_frame, csv_frame.
  rewrite bind_run. destruct (p.2) as [|df]; [done|].
  unfold alloc. rewrite bind_run. unfold setitem_value, mutate.
  rewrite list_lookup_middle by done. simpl.
  by rewrite insert_app_r_alt, Nat.sub_diag by done.
Qed.

Lemma mapM_cons {A B} (f : A → option B) x (l : list A) :
  mapM f (x :: l) =
  match f x with
  | Some y => match mapM f l with Some k => Some (y :: k) | None => None end
  | None => None
  end.
Proof. simpl. destruct (f x); [|done]. simpl. by destruct (mapM f l). Qed.

(** The loop over the input files appends one tagged frame per file. *)
Lemma read_loop_run paths (frames : list (DataFrame scalar)) σ :
  mapM tagged_frame paths = Some frames →
  for_each read_and_tag paths σ =
    (inr (seq (length σ) (length frames)), σ ++ frames).
Proof.
  revert frames σ. induction paths as [|p paths IH]; intros frames σ.
  - intros [= <-]. simpl. by rewrite app_nil_r.
  - rewrite mapM_cons, for_each_cons, read_and_tag_run.
    destruct (tagged_frame p) as [df|]; [|done].
    destruct (mapM tagged_frame paths) as [fs|] eqn:Efs; [|done].
    intros [= <-]. rewrite (IH fs) by done. simpl.
    rewrite length_app, <- app_assoc. simpl. by rewrite Nat.add_1_r.
Qed.

Lemma read_loop_fails paths σ :
  mapM tagged_frame paths = None →
  ∃ name σ', for_each read_and_tag paths σ = (inl (ReadCsvError name), σ').
Proof.
  revert σ. induction paths as [|p paths IH]; intros σ; [done|].
  rewrite mapM_cons, for_each_cons, read_and_tag_run.
  destruct (tagged_frame p) as [df|]; [|eauto].
  destruct (mapM tagged_frame paths) as [fs|] eqn:Efs; [done|]. intros _.
  edestruct IH as (name & σ' & ->); [done|]. eauto.
Qed.

(** *** The normalisation pass *)

Lemma set_cells_norm c rs :
  set_cells c (str_strip (astype_str (column c rs))) rs = norm_cell c <$> rs.
Proof. induction rs as [|r rs IH]; simpl; [done|]. by rewrite IH. Qed.

Lemma add_column_elem c (cols : list pystr) : c ∈ cols → add_column c cols = cols.
Proof. intros. unfold add_column. by rewrite decide_True. Qed.

Lemma normalize_column_run l c σ :
  normalize_column l c σ =
  match σ !! l with
  | None => (inl BadRef, σ)
  | Some df =>
      if decide (c ∈ columns df) then (inr (), <[l:=norm_column c df]> σ)
      else (inl (KeyError c), σ)
  end.
Proof.
  unfold normalize_column, getitem. rewrite !bind_run. unfold deref.
  destruct (σ !! l) as [df|] eqn:El; [|done].
  case_decide as Hc; [|done]. simpl.
  unfold setitem, mutate. rewrite El. do 2 f_equal.
  unfold set_column, norm_column. by rewrite set_cells_norm, add_column_elem.
Qed.
End run_facts.

(** ** load_data *)

Section load_facts.
Context `{Scalar scalar}.
Implicit Types (σ : store scalar) (df : DataFrame scalar) (r : row scalar).
Implicit Types (rs : list (row scalar)) (c : pystr) (l : loc).
Implicit Types (data_dir : directory scalar) (p : pystr * file scalar).

Lemma elem_of_input_files data_dir p :
  p ∈ input_files data_dir ↔ input_file data_dir p.
Proof.
  unfold input_files, sorted_paths, glob, input_file.
  rewrite elem_of_stable_sort, list_elem_of_filter, glob_match_heteronyms. tauto.
Qed.

Lemma input_files_nil data_dir :
  input_files data_dir = [] ↔ ∀ p, ¬ input_file data_dir p.
Proof.
  split.
  - intros E p Hp%elem_of_input_files. rewrite E in Hp. by apply elem_of_nil in Hp.
  - intros Hno. destruct (input_files data_dir) as [|p ps] eqn:E; [done|].
    destruct (Hno p). apply elem_of_input_files. rewrite E. left.
Qed.

Lemma required_elem c :
  c ∈ required ↔ c ∈ [language; word; sense_id; meaning; ipa].
Proof. unfold required. by rewrite elem_of_list_to_set. Qed.

Lemma normalize_frame_columns df :
  normalize_frame df =
  norm_column ipa (norm_column language (norm_column word df)).
Proof.
  unfold normalize_frame, norm_column. simpl. f_equal.
  rewrite <- !list_fmap_compose. done.
Qed.

(** The closed form of the normalisation pass. *)
Lemma normalize_run l σ :
  normalize l σ =
  match σ !! l with
  | None => (inl BadRef, σ)
  | Some df =>
      if decide (word ∈ columns df) then
        if decide (language ∈ columns df) then
          if decide (ipa ∈ columns df) then
            (inr (), <[l:=normalize_frame df]> σ)
          else (inl (KeyError ipa), <[l:=norm_column language (norm_column word df)]> σ)
        else (inl (KeyError language), <[l:=norm_column word df]> σ)
      else (inl (KeyError word), σ)
  end.
Proof.
  unfold normalize. rewrite bind_run, normalize_column_run.
  destruct (σ !! l) as [df|] eqn:El; [|done].
  assert (l < length σ) as Hl by (by eapply lookup_lt_Some).
  destruct (decide (word ∈ columns df)); [|done].
  rewrite bind_run, normalize_column_run, list_lookup_insert_eq by done. simpl.
  destruct (decide (language ∈ columns df)); [|done].
  rewrite normalize_column_run, list_lookup_insert_eq by (by rewrite length_insert).
  simpl. rewrite !list_insert_insert_eq.
  destruct (decide (ipa ∈ columns df)); [|done].
  by rewrite normalize_frame_columns.
Qed.

(** The closed form of [load_data] when every input file is readable. *)
Lemma load_data_run data_dir σ (frames : list (DataFrame scalar)) :
  mapM tagged_frame (input_files data_dir) = Some frames →
  load_data data_dir σ =
  if frames is [] then (inl NoCsvFiles, σ)
  else
    let df := concat_frames frames in
    let missing := required ∖ list_to_set (columns df) in
    if decide (missing = ∅)
    then (inr (length σ + length frames), σ ++ frames ++ [normalize_frame df])
    else (inl (MissingColumns missing), σ ++ frames ++ [df]).
Proof.
  intros Hframes. unfold load_data. fold (input_files data_dir).
  rewrite bind_run, (read_loop_run _ frames) by done.
  destruct frames as [|f frames]; [by rewrite app_nil_r|].
  change (length (f :: frames)) with (S (length frames)).
  cbn [seq]. cbv beta iota. unfold pd_concat. rewrite !bind_run.
  rewrite (deref_all_run _ (f :: frames)) by apply (lookup_seq_app σ (f :: frames)).
  unfold alloc. rewrite bind_run. unfold deref.
  rewrite list_lookup_middle by done. simpl length.
  set (fs := f :: frames). set (df := concat_frames fs).
  destruct (decide (required ∖ list_to_set (columns df) = ∅)) as [Hm|Hm];
    [|by rewrite <- app_assoc].
  assert (∀ c, c ∈ required → c ∈ columns df) as Hreq.
  { intros c Hc. destruct (decide (c ∈ columns df)) as [|Hn]; [done|].
    assert (c ∈ required ∖ list_to_set (columns df)) as Hin.
    { apply elem_of_difference. split; [done|]. by rewrite elem_of_list_to_set. }
    rewrite Hm in Hin. by apply not_elem_of_empty in Hin. }
  rewrite bind_run, normalize_run, list_lookup_middle by done.
  rewrite !decide_True by (apply Hreq, required_elem; set_solver).
  simpl. rewrite insert_app_r_alt, Nat.sub_diag by done. simpl.
  rewrite length_app, <- app_assoc. done.
Qed.

Lemma load_data_unreadable data_dir σ :
  mapM tagged_frame (input_files data_dir) = None →
  ∃ name σ', load_data data_dir σ = (inl (ReadCsvError name), σ').
Proof.
  intros Hnone. unfold load_data. fold (input_files data_dir).
  destruct (read_loop_fails _ σ Hnone) as (name & σ' & E).
  rewrite bind_run, E. eauto.
Qed.

Lemma tagged_frames_length paths (frames : list (DataFrame scalar)) :
  mapM tagged_frame paths = Some frames → length frames = length paths.
Proof. intros ?%mapM_Some_1. symmetry. by eapply Forall2_length. Qed.

Lemma tagged_frames_readable paths :
  (∀ p, p ∈ paths → readable p) → is_Some (mapM tagged_frame paths).
Proof.
  intros Hr. apply mapM_is_Some_2, Forall_forall. intros p Hp.
  destruct (Hr p Hp) as [df E]. unfold tagged_frame, csv_frame. simpl.
  rewrite E. by eexists.
Qed.
End load_facts.

(** ** The errors of load_data *)

Section load_errors.
Context `{Scalar scalar}.
Implicit Types (σ : store scalar) (df : DataFrame scalar) (r : row scalar).
Implicit Types (c : pystr) (l : loc).
Implicit Types (data_dir : directory scalar) (p : pystr * file scalar).

Lemma concat_join {A} (ls : list (list A)) : concat ls = mjoin ls.
Proof. induction ls as [|x ls IH]; simpl; [done|]. by rewrite IH. Qed.

Lemma elem_of_concat_columns (frames : list (DataFrame scalar)) c :
  c ∈ columns (concat_frames frames) ↔ ∃ f, f ∈ frames ∧ c ∈ columns f.
Proof.
  unfold concat_frames. simpl.
  rewrite elem_of_unique, concat_join, list_elem_of_join. split.
  - intros (cols & Hc & (f & -> & Hf)%list_elem_of_fmap). eauto.
  - intros (f & Hf & Hc). exists (columns f). split; [done|].
    by apply list_elem_of_fmap_2.
Qed.

Lemma elem_of_add_column c c' (cols : list pystr) :
  c ∈ add_column c' cols ↔ c = c' ∨ c ∈ cols.
Proof.
  unfold add_column. case_decide.
  - split; [tauto|]. by intros [->|?].
  - rewrite elem_of_app, list_elem_of_singleton. tauto.
Qed.

Lemma tagged_frame_Some p f :
  tagged_frame p = Some f ↔
  ∃ df, p.2 = Csv df ∧ f = fill_column source_file (Str p.1) df.
Proof.
  unfold tagged_frame, csv_frame. destruct (p.2) as [|df]; simpl.
  - split; [done|]. by intros (? & ? & ?).
  - split; [intros [= <-]; eauto|]. by intros (? & [= <-] & ->).
Qed.

(** A required column is in the concatenated table exactly when one of
    the input files has it. *)
Lemma required_column_loaded paths (frames : list (DataFrame scalar)) c :
  mapM tagged_frame paths = Some frames → c ≠ source_file →
  c ∈ columns (concat_frames frames) ↔ ∃ p, p ∈ paths ∧ c ∈ file_columns p.
Proof.
  intros Hf%mapM_Some_1 Hc. rewrite elem_of_concat_columns. split.
  - intros (f & Hin & Hcol).
    destruct (Forall2_elem_of_r _ _ _ f Hf Hin) as (p & Hp & (df & E & ->)%tagged_frame_Some).
    exists p. split; [done|]. unfold file_columns. rewrite E.
    simpl in Hcol. apply elem_of_add_column in Hcol as [?|?]; done.
  - intros (p & Hp & Hcol).
    destruct (Forall2_elem_of_l _ _ _ p Hf Hp) as (f & Hin & (df & E & ->)%tagged_frame_Some).
    eexists. split; [done|]. simpl. apply elem_of_add_column. right.
    unfold file_columns in Hcol. by rewrite E in Hcol.
Qed.

Lemma required_not_source_file c : c ∈ required → c ≠ source_file.
Proof.
  rewrite required_elem, !elem_of_cons, elem_of_nil.
  intros [->|[->|[->|[->|[->|[]]]]]]; done.
Qed.

(** With input files that are all readable and together have the
    required columns, [load_data] returns. *)
Lemma load_data_returns data_dir σ :
  (∃ p, input_file data_dir p) →
  (∀ p, input_file data_dir p → readable p) →
  (∀ c, c ∈ required → ∃ p, input_file data_dir p ∧ c ∈ file_columns p) →
  ∃ l, (load_data data_dir σ).1 = inr l.
Proof.
  intros [p0 Hp0] Hread Hreq.
  destruct (tagged_frames_readable (input_files data_dir)) as [frames Hf].
  { intros p Hp. by apply Hread, elem_of_input_files. }
  pose proof (tagged_frames_length _ _ Hf) as Hlen.
  rewrite (load_data_run _ _ frames Hf).
  destruct frames as [|f frames].
  { apply elem_of_input_files in Hp0. symmetry in Hlen.
    apply nil_length_inv in Hlen. rewrite Hlen in Hp0. by apply elem_of_nil in Hp0. }
  cbv zeta. rewrite decide_True; [simpl; eauto|].
  apply set_eq. intros c. rewrite elem_of_difference, elem_of_list_to_set.
  split; [|by intros ?%not_elem_of_empty]. intros [Hc Hn]. destruct Hn.
  destruct (Hreq c Hc) as (p & Hp & Hcol).
  apply (required_column_loaded _ _ c Hf); [by apply required_not_source_file|].
  exists p. by rewrite elem_of_input_files.
Qed.

(** C4.  [load_data] fails with the error "No CSV files found" exactly
    when no entry of the directory has a name of the form
    [heteronyms_*.csv], and then it does not fail with the error
    "Missing required columns". *)
Theorem load_data_no_input data_dir σ :
  ((load_data data_dir σ).1 = inl NoCsvFiles ↔
   ∀ p, p ∈ data_dir → ¬ matches_pattern p.1) ∧
  ((∀ p, p ∈ data_dir → ¬ matches_pattern p.1) →
   ∀ missing, (load_data data_dir σ).1 ≠ inl (MissingColumns missing)).
Proof.
  assert ((∀ p, p ∈ data_dir → ¬ matches_pattern p.1) ↔ input_files data_dir = [])
    as Hnone.
  { rewrite input_files_nil. unfold input_file. naive_solver. }
  rewrite Hnone.
  destruct (mapM tagged_frame (input_files data_dir)) as [frames|] eqn:Hf.
  - pose proof (tagged_frames_length _ _ Hf) as Hlen.
    rewrite (load_data_run _ _ frames Hf). destruct frames as [|f frames].
    + symmetry in Hlen. apply nil_length_inv in Hlen. simpl. by rewrite Hlen.
    + assert (input_files data_dir ≠ []) as Hne by (by intros E; rewrite E in Hlen).
      cbv zeta. case_decide; simpl; split; try split; done.
  - destruct (load_data_unreadable _ σ Hf) as (name & σ' & ->). simpl.
    assert (input_files data_dir ≠ []) as Hne by (by intros E; rewrite E in Hf).
    split; try split; done.
Qed.

(** C5.  When there are input files and each is readable, [load_data]
    fails with the error "Missing required columns" exactly when some
    required column is in none of the input files; the error then names
    exactly the required columns that no input file has; and when every
    required column is in some input file the load succeeds, whatever
    other columns the files have. *)
Theorem load_data_schema data_dir σ :
  (∃ p, input_file data_dir p) →
  (∀ p, input_file data_dir p → readable p) →
  let absent c := ∀ p, input_file data_dir p → c ∉ file_columns p in
  ((∃ missing, (load_data data_dir σ).1 = inl (MissingColumns missing)) ↔
   ∃ c, c ∈ required ∧ absent c) ∧
  (∀ missing, (load_data data_dir σ).1 = inl (MissingColumns missing) →
   ∀ c, c ∈ missing ↔ c ∈ required ∧ absent c) ∧
  ((∀ c, c ∈ required → ¬ absent c) →
   ∃ l, (load_data data_dir σ).1 = inr l).
Proof.
  intros [p0 Hp0] Hread absent.
  destruct (tagged_frames_readable (input_files data_dir)) as [frames Hf].
  { intros p Hp. by apply Hread, elem_of_input_files. }
  pose proof (tagged_frames_length _ _ Hf) as Hlen.
  rewrite (load_data_run _ _ frames Hf).
  destruct frames as [|f frames].
  { apply elem_of_input_files in Hp0. symmetry in Hlen.
    apply nil_length_inv in Hlen. rewrite Hlen in Hp0. by apply elem_of_nil in Hp0. }
  set (df := concat_frames (f :: frames)). cbv zeta.
  assert (∀ c, c ∈ required ∖ list_to_set (columns df) ↔ c ∈ required ∧ absent c)
    as Hmissing.
  { intros c. rewrite elem_of_difference, elem_of_list_to_set. unfold absent.
    split.
    - intros [Hc Hn]. split; [done|]. intros p Hp Hcol. apply Hn.
      apply (required_column_loaded _ _ c Hf); [by apply required_not_source_file|].
      exists p. by rewrite elem_of_input_files.
    - intros [Hc Hn]. split; [done|].
      intros (p & Hp & Hcol)%(required_column_loaded _ _ c Hf);
        [|by apply required_not_source_file].
      apply (Hn p); [by apply elem_of_input_files|done]. }
  case_decide as Hm; simpl.
  - split; [|split].
    + split; [by intros [? ?]|]. intros (c & Hc). apply Hmissing in Hc.
      rewrite Hm in Hc. by apply not_elem_of_empty in Hc.
    + done.
    + eauto.
  - split; [|split].
    + split; [intros _|eauto].
      destruct (set_choose_L _ Hm) as [c Hc]. exists c. by apply Hmissing.
    + intros missing [= <-]. done.
    + intros Hall. destruct (set_choose_L _ Hm) as [c Hc].
      apply Hmissing in Hc as [Hc Habs]. by destruct (Hall c).
Qed.
End load_errors.

(** ** The normalisation pass *)

Section normalize_facts.
Context `{Scalar scalar}.
Implicit Types (σ : store scalar) (df : DataFrame scalar) (r : row scalar).
Implicit Types (c : pystr) (l : loc).

Lemma norm_cell_normal c r : normal c (norm_cell c r).
Proof.
  unfold normal, norm_cell. eexists. rewrite lookup_insert_eq.
  split; [done|]. apply strip_idemp.
Qed.

Lemma norm_cell_other c c' r : c ≠ c' → norm_cell c' r !! c = r !! c.
Proof. intros. unfold norm_cell. by rewrite lookup_insert_ne. Qed.

Lemma norm_cell_keeps_normal c c' r : normal c r → normal c (norm_cell c' r).
Proof.
  destruct (decide (c = c')) as [->|Hne]; [intros _; apply norm_cell_normal|].
  unfold normal. by rewrite norm_cell_other.
Qed.

Lemma norm_cell_id c r : normal c r → norm_cell c r = r.
Proof.
  intros (s & E & Hs). unfold norm_cell. rewrite E. simpl. rewrite Hs.
  by apply insert_id.
Qed.

Lemma norm_column_id c df : Forall (normal c) (rows df) → norm_column c df = df.
Proof.
  intros Hall. destruct df as [cols rs]. unfold norm_column. cbn [columns rows] in *.
  f_equal. induction Hall as [|r rs Hr _ IH]; [done|].
  rewrite fmap_cons. by rewrite norm_cell_id, IH.
Qed.

Lemma norm_column_normal c df : Forall (normal c) (rows (norm_column c df)).
Proof.
  change (rows (norm_column c df)) with (norm_cell c <$> rows df).
  apply Forall_fmap, Forall_forall. intros r _. apply norm_cell_normal.
Qed.

Lemma norm_column_keeps_normal c c' df :
  Forall (normal c) (rows df) → Forall (normal c) (rows (norm_column c' df)).
Proof.
  change (rows (norm_column c' df)) with (norm_cell c' <$> rows df).
  rewrite Forall_fmap. intros Hall. eapply Forall_impl; [done|]. intros r.
  apply norm_cell_keeps_normal.
Qed.

Lemma normalize_row_normal c r :
  c ∈ [word; language; ipa] → normal c (normalize_row r).
Proof.
  unfold normalize_row. rewrite !elem_of_cons, elem_of_nil.
  intros [->|[->|[->|[]]]];
    eauto using norm_cell_normal, norm_cell_keeps_normal.
Qed.

Lemma normalize_row_other c r :
  c ∉ [word; language; ipa] → normalize_row r !! c = r !! c.
Proof.
  rewrite !elem_of_cons, elem_of_nil. intros Hc. unfold normalize_row.
  rewrite !norm_cell_other by (intros ->; tauto). done.
Qed.

Lemma normalize_row_id r :
  normal word r → normal language r → normal ipa r → normalize_row r = r.
Proof.
  intros Hw Hl Hi. unfold normalize_row.
  rewrite (norm_cell_id word), (norm_cell_id language), (norm_cell_id ipa); done.
Qed.

Lemma normalize_frame_idemp df :
  normalize_frame (normalize_frame df) = normalize_frame df.
Proof.
  unfold normalize_frame. cbn [columns rows]. f_equal. rewrite <- list_fmap_compose.
  apply list_fmap_ext. intros _ r _. simpl.
  apply normalize_row_id; apply normalize_row_normal;
    rewrite !elem_of_cons; tauto.
Qed.

(** C7.  The normalisation pass is idempotent: run on the store that a
    first run leaves, it ends as the first run did (the same outcome)
    and leaves every object, so the three columns too, as the first run
    left them. *)
Theorem normalize_idempotent l σ :
  normalize l (normalize l σ).2 = normalize l σ.
Proof.
  rewrite (normalize_run l σ).
  destruct (σ !! l) as [df|] eqn:El; simpl; [|by rewrite normalize_run, El].
  assert (l < length σ) as Hl by (by eapply lookup_lt_Some).
  destruct (decide (word ∈ columns df)) as [Hw|Hw]; simpl;
    [|by rewrite normalize_run, El, decide_False].
  destruct (decide (language ∈ columns df)) as [Hla|Hla]; simpl.
  - destruct (decide (ipa ∈ columns df)) as [Hi|Hi]; simpl.
    + rewrite normalize_run, list_lookup_insert_eq by done. simpl.
      rewrite !decide_True by done.
      by rewrite normalize_frame_idemp, list_insert_insert_eq.
    + rewrite normalize_run, list_lookup_insert_eq by done. simpl.
      rewrite !decide_True by done. rewrite decide_False by done.
      rewrite list_insert_insert_eq.
      set (df' := norm_column language (norm_column word df)).
      rewrite (norm_column_id word df'), (norm_column_id language df'); [done|..].
      * apply norm_column_normal.
      * apply norm_column_keeps_normal, norm_column_normal.
  - rewrite normalize_run, list_lookup_insert_eq by done. simpl.
    rewrite decide_True, decide_False by done.
    rewrite list_insert_insert_eq.
    by rewrite (norm_column_id word (norm_column word df)) by apply norm_column_normal.
Qed.
End normalize_facts.

(** ** The loaded table *)

Section loaded_facts.
Context `{Scalar scalar}.
Implicit Types (σ : store scalar) (df : DataFrame scalar) (r : row scalar).
Implicit Types (rs : list (row scalar)) (c : pystr) (l : loc).
Implicit Types (data_dir : directory scalar) (p : pystr * file scalar).

Lemma tagged_rows_cons p paths :
  tagged_rows (p :: paths) =
  ((λ r : row scalar, <[source_file := Str p.1]> r) <$> file_rows p) ++ tagged_rows paths.
Proof. done. Qed.

Lemma concat_tagged_frames paths (frames : list (DataFrame scalar)) :
  mapM tagged_frame paths = Some frames →
  concat (rows <$> frames) = tagged_rows paths.
Proof.
  revert frames. induction paths as [|p paths IH]; intros frames.
  - by intros [= <-].
  - rewrite mapM_cons, tagged_rows_cons.
    destruct (tagged_frame p) as [f|] eqn:Ef; [|done].
    destruct (mapM tagged_frame paths) as [fs|]; [|done]. intros [= <-].
    apply tagged_frame_Some in Ef as (df & E & ->).
    rewrite fmap_cons. simpl. rewrite (IH fs) by done.
    unfold file_rows. by rewrite E.
Qed.

Lemma lookup_last_object σ (frames : list (DataFrame scalar)) df :
  (σ ++ frames ++ [df]) !! (length σ + length frames) = Some df.
Proof. rewrite app_assoc. apply list_lookup_middle. by rewrite length_app. Qed.

(** What a successful load leaves: the table at the returned reference
    has the rows [loaded_rows] and the required columns, and the objects
    the store had before are untouched. *)
Lemma load_data_inv data_dir σ l σ' :
  load_data data_dir σ = (inr l, σ') →
  ∃ data, σ' !! l = Some data ∧ rows data = loaded_rows data_dir ∧
          (∀ c, c ∈ required → c ∈ columns data) ∧
          (∀ l' df, σ !! l' = Some df → σ' !! l' = Some df).
Proof.
  destruct (mapM tagged_frame (input_files data_dir)) as [frames|] eqn:Hf.
  - rewrite (load_data_run _ _ frames Hf). destruct frames as [|f frames]; [done|].
    cbv zeta. case_decide as Hm; [|done]. intros [= <- <-].
    exists (normalize_frame (concat_frames (f :: frames))). split; [|split; [|split]].
    + apply (lookup_last_object σ (f :: frames)).
    + unfold loaded_rows, concat_frames. cbn [rows normalize_frame].
      rewrite (concat_tagged_frames _ _ Hf), <- list_fmap_compose. done.
    + intros c Hc. cbn [columns normalize_frame].
      destruct (decide (c ∈ columns (concat_frames (f :: frames)))) as [|Hn]; [done|].
      assert (c ∈ required ∖ list_to_set (columns (concat_frames (f :: frames)))) as Hin.
      { apply elem_of_difference. split; [done|]. by rewrite elem_of_list_to_set. }
      rewrite Hm in Hin. by apply not_elem_of_empty in Hin.
    + intros l' df Hl'. by apply lookup_app_l_Some.
  - destruct (load_data_unreadable _ σ Hf) as (name & σ'' & ->). done.
Qed.

Lemma promote_row_lookup rs r c :
  promote_row rs r !! c = promote_value (column c rs) <$> r !! c.
Proof. unfold promote_row. rewrite map_lookup_imap. by destruct (r !! c). Qed.

Lemma normalize_row_lookup c r :
  c ∈ [word; language; ipa] →
  normalize_row r !! c = Some (Str (strip (py_str (r !! c)))).
Proof.
  rewrite !elem_of_cons, elem_of_nil. unfold normalize_row.
  intros [->|[->|[->|[]]]].
  - rewrite !(norm_cell_other word) by names_ne. unfold norm_cell.
    by rewrite lookup_insert_eq.
  - rewrite (norm_cell_other language ipa) by names_ne. unfold norm_cell at 1.
    rewrite lookup_insert_eq. by rewrite (norm_cell_other language word) by names_ne.
  - unfold norm_cell at 1. rewrite lookup_insert_eq.
    by rewrite !(norm_cell_other ipa) by names_ne.
Qed.

Lemma loaded_row_str ctx r c :
  c ∈ [word; language; ipa] → ∃ s, loaded_row ctx r !! c = Some (Str s).
Proof. intros Hc. unfold loaded_row. rewrite normalize_row_lookup by done. eauto. Qed.

Lemma loaded_row_nan ctx r c :
  c ∈ [word; language; ipa] → r !! c = None →
  loaded_row ctx r !! c = Some (Str (lit "nan")).
Proof.
  intros Hc Hnone. unfold loaded_row.
  rewrite normalize_row_lookup, promote_row_lookup, Hnone by done. done.
Qed.

Lemma loaded_row_source_file ctx r (name : pystr) :
  loaded_row ctx (<[source_file := Str name]> r) !! source_file = Some (Str name).
Proof.
  unfold loaded_row. rewrite normalize_row_other.
  - by rewrite promote_row_lookup, lookup_insert_eq.
  - rewrite !elem_of_cons, elem_of_nil. intros [E|[E|[E|[]]]]; by vm_compute in E.
Qed.

Lemma length_tagged_rows paths :
  length (tagged_rows paths) = sum_list ((λ p, length (file_rows p)) <$> paths).
Proof.
  induction paths as [|p paths IH]; [done|].
  rewrite tagged_rows_cons, length_app, length_fmap, IH. done.
Qed.

Lemma source_file_tagged_rows ctx paths :
  column source_file (loaded_row ctx <$> tagged_rows paths) =
  p ← paths; replicate (length (file_rows p)) (Some (Str p.1)).
Proof.
  induction paths as [|p paths IH]; [done|].
  rewrite tagged_rows_cons, fmap_app. unfold column in *.
  rewrite fmap_app, IH. change ((p :: paths) ≫= ?f) with (f p ++ (paths ≫= f)).
  f_equal. induction (file_rows p) as [|r rs IHr]; [done|].
  rewrite !fmap_cons, loaded_row_source_file, IHr. done.
Qed.

Lemma input_files_sorted data_dir :
  StronglySorted (λ p q, cmp_le str_cmp p.1 q.1) (input_files data_dir).
Proof.
  unfold input_files, sorted_paths.
  pose proof (TotalCmp_on (λ _ : pystr * file scalar, True) (λ _, True)
                fst str_cmp str_cmp_total (λ _ _, I)) as Htotal.
  apply (@stable_sort_sorted _ _ _ Htotal). by apply Forall_true.
Qed.

(** C6, amended.  When the directory has an input file, every input file is
    readable and every required column is in some input file, [load_data]
    returns a table.  The files it read are the input files in the order
    of their names; the table has as many rows as these files have
    together; its [source_file] column holds, file after file, the name
    of the file once per row of the file; and its rows are, in this order,
    the images of the rows of the files in their order in the file. *)
Theorem load_data_rows data_dir σ :
  (∃ p, input_file data_dir p) →
  (∀ p, input_file data_dir p → readable p) →
  (∀ c, c ∈ required → ∃ p, input_file data_dir p ∧ c ∈ file_columns p) →
  ∃ l σ' data,
    load_data data_dir σ = (inr l, σ') ∧ σ' !! l = Some data ∧
    let files := input_files data_dir in
    files ≡ₚ glob data_dir (lit "heteronyms_*.csv") ∧
    (∀ p, p ∈ files ↔ input_file data_dir p) ∧
    StronglySorted (λ p q, cmp_le str_cmp p.1 q.1) files ∧
    length (rows data) = sum_list ((λ p, length (file_rows p)) <$> files) ∧
    column source_file (rows data) =
      (p ← files; replicate (length (file_rows p)) (Some (Str p.1))) ∧
    rows data = loaded_row (tagged_rows files) <$> tagged_rows files.
Proof.
  intros Hex Hread Hreq.
  destruct (load_data_returns data_dir σ Hex Hread Hreq) as [l Hl].
  destruct (load_data data_dir σ) as [res σ'] eqn:Hrun. simpl in Hl. subst res.
  destruct (load_data_inv _ _ _ _ Hrun) as (data & Hdata & Hrows & _).
  exists l, σ', data. split; [done|]. split; [done|]. cbv zeta.
  split; [apply stable_sort_perm|].
  split; [apply elem_of_input_files|].
  split; [apply input_files_sorted|].
  rewrite Hrows. unfold loaded_rows. cbv zeta.
  split; [by rewrite length_fmap, length_tagged_rows|].
  split; [apply source_file_tagged_rows|done].
Qed.

(** C10.  In the table [load_data] returns, every cell of the columns
    language, word and ipa is a string, and a cell that was missing in
    the input is the string [nan].  So on any part of the table the
    non-missing filter on ipa removes nothing, and [nunique] on ipa
    counts every distinct cell, the [nan] ones included. *)
Theorem loaded_no_missing data_dir σ l σ' :
  load_data data_dir σ = (inr l, σ') →
  ∃ data,
    σ' !! l = Some data ∧
    (∀ r c, r ∈ rows data → c ∈ [language; word; ipa] →
            ∃ s, r !! c = Some (Str s)) ∧
    Forall2 (λ r0 r, ∀ c, c ∈ [language; word; ipa] → r0 !! c = None →
                          r !! c = Some (Str (lit "nan")))
      (tagged_rows (input_files data_dir)) (rows data) ∧
    (∀ g, g ⊆ rows data → Some <$> dropna (column ipa g) = column ipa g) ∧
    (∀ g, g ⊆ rows data → distinct_count (column ipa g) (nunique (column ipa g))).
Proof.
  intros Hrun. destruct (load_data_inv _ _ _ _ Hrun) as (data & Hdata & Hrows & _).
  exists data. split; [done|].
  assert (∀ c, c ∈ [language; word; ipa] → c ∈ [word; language; ipa]) as Hperm.
  { intros c. rewrite !elem_of_cons. tauto. }
  assert (∀ r c, r ∈ rows data → c ∈ [language; word; ipa] →
                 ∃ s, r !! c = Some (Str s)) as Hstr.
  { intros r c Hr Hc. rewrite Hrows in Hr. unfold loaded_rows in Hr.
    apply list_elem_of_fmap in Hr as (r0 & -> & _). by apply loaded_row_str, Hperm. }
  assert (∀ g, g ⊆ rows data → Some <$> dropna (column ipa g) = column ipa g) as Hdrop.
  { intros g Hg. unfold dropna, column.
    induction g as [|r g IH]; [done|].
    destruct (Hstr r ipa) as [s Hs].
    { apply Hg. left. } { rewrite !elem_of_cons. tauto. }
    rewrite fmap_cons. cbn [omap list_omap]. rewrite Hs. simpl. f_equal.
    apply IH. intros x Hx. apply Hg. by right. }
  split; [done|]. split; [|split; [done|]].
  - rewrite Hrows. unfold loaded_rows. cbv zeta. apply Forall2_fmap_r, Forall_Forall2_diag.
    apply Forall_forall. intros r0 _ c Hc Hnone. by apply loaded_row_nan; [apply Hperm|].
  - intros g Hg. unfold nunique.
    exists (Some <$> unique (dropna (column ipa g))). split; [|split].
    + apply (NoDup_fmap_2 _), NoDup_unique.
    + intros x. rewrite <- (Hdrop g Hg) at 2. rewrite !list_elem_of_fmap.
      by setoid_rewrite elem_of_unique.
    + by rewrite length_fmap.
Qed.
End loaded_facts.

(** ** The plot functions leave the table alone *)

Section frame_facts.
Context `{Scalar scalar}.
Implicit Types (σ : store scalar) (df : DataFrame scalar) (r : row scalar).
Implicit Types (c : pystr) (l : loc).

Lemma check_columns_run df (cs : list pystr) σ :
  check_columns df cs σ =
  match list_find (λ c, c ∉ columns df) cs with
  | Some (_, c) => (inl (KeyError c), σ)
  | None => (inr (), σ)
  end.
Proof.
  induction cs as [|c cs IH]; [done|]. cbn [check_columns list_find].
  destruct (decide (c ∈ columns df)) as [Hc|Hc].
  - rewrite decide_False by tauto. rewrite IH.
    by destruct (list_find _ cs) as [[? ?]|].
  - by rewrite decide_True.
Qed.

Lemma check_columns_ok df (cs : list pystr) σ :
  (∀ c, c ∈ cs → c ∈ columns df) → check_columns df cs σ = (inr (), σ).
Proof.
  intros Hall. rewrite check_columns_run.
  destruct (list_find _ cs) as [[i c]|] eqn:E; [|done].
  apply list_find_Some in E as (Hi & Hn & _).
  destruct Hn. apply Hall. by eapply list_elem_of_lookup_2.
Qed.

Lemma check_columns_state df (cs : list pystr) σ : (check_columns df cs σ).2 = σ.
Proof. rewrite check_columns_run. by destruct (list_find _ cs) as [[? ?]|]. Qed.

Lemma py_sorted_state (vs : list (value scalar)) σ : (py_sorted vs σ).2 = σ.
Proof. unfold py_sorted. by destruct (_ || _). Qed.

Lemma for_each_state {A B} (f : A → M scalar B) (xs : list A) σ :
  (∀ a σ0, (f a σ0).2 = σ0) → (for_each f xs σ).2 = σ.
Proof.
  intros Hf. revert σ. induction xs as [|a xs IH]; intros σ; [done|].
  rewrite for_each_cons. specialize (Hf a σ).
  destruct (f a σ) as [[e|b] σ1]; simpl in Hf; subst σ1; [done|].
  specialize (IH σ). by destruct (for_each f xs σ) as [[e|bs] σ2].
Qed.

Lemma plot_variant_counts_run l σ :
  plot_variant_counts l σ =
  match σ !! l with
  | None => (inl BadRef, σ)
  | Some df =>
      match (check_columns df [language; word; ipa; sense_id] σ).1 with
      | inl e => (inl e, σ)
      | inr _ =>
          (inr (stable_sort counts_cmp
                  (agg_counts <$> groupby language word (rows df))), σ)
      end
  end.
Proof.
  unfold plot_variant_counts. rewrite bind_run. unfold deref.
  destruct (σ !! l) as [df|]; [|done]. rewrite bind_run.
  pose proof (check_columns_state df [language; word; ipa; sense_id] σ) as Hs.
  destruct (check_columns _ _ σ) as [[e|[]] σ1]; simpl in Hs; by subst σ1.
Qed.

Lemma select_words_run l (max_words : Z) σ :
  select_words l max_words σ =
  match σ !! l with
  | None => (inl BadRef, σ)
  | Some df =>
      match (check_columns df [language; word; ipa] σ).1 with
      | inl e => (inl e, σ)
      | inr _ =>
          (inr (head max_words
                  (stable_sort words_cmp
                     (agg_words <$> groupby language word (rows df)))), σ)
      end
  end.
Proof.
  unfold select_words. rewrite bind_run. unfold deref.
  destruct (σ !! l) as [df|]; [|done]. rewrite bind_run.
  pose proof (check_columns_state df [language; word; ipa] σ) as Hs.
  destruct (check_columns _ _ σ) as [[e|[]] σ1]; simpl in Hs; by subst σ1.
Qed.

Lemma card_of_state l (w : words_row scalar) σ : (card_of l w σ).2 = σ.
Proof.
  unfold card_of. rewrite bind_run. unfold deref.
  destruct (σ !! l) as [df|]; [|done]. rewrite bind_run.
  pose proof (check_columns_state df [language; word] σ) as Hs.
  destruct (check_columns _ _ σ) as [[e|[]] σ1]; simpl in Hs; subst σ1; [done|].
  rewrite bind_run.
  pose proof (check_columns_state df [ipa] σ) as Hs.
  destruct (check_columns _ _ σ) as [[e|[]] σ1]; simpl in Hs; subst σ1; [done|].
  rewrite bind_run.
  match goal with |- context [py_sorted ?vs σ] =>
    pose proof (py_sorted_state vs σ) as Hs;
    destruct (py_sorted vs σ) as [[e|ipas] σ1]; simpl in Hs; subst σ1; [done|]
  end.
  rewrite bind_run.
  pose proof (check_columns_state df [ipa; meaning] σ) as Hs.
  by destruct (check_columns _ _ σ) as [[e|[]] σ1]; simpl in Hs; subst σ1.
Qed.

Lemma plot_word_cards_state l (max_words : Z) σ :
  (plot_word_cards l max_words σ).2 = σ.
Proof.
  unfold plot_word_cards. rewrite bind_run, select_words_run.
  destruct (σ !! l) as [df|]; [|done].
  destruct (check_columns _ _ σ).1; [done|].
  apply for_each_state, card_of_state.
Qed.

(** The closed form of [plot_ipa_length]. *)
Lemma plot_ipa_length_run l σ :
  plot_ipa_length l σ =
  match σ !! l with
  | None => (inl BadRef, σ)
  | Some df =>
      if decide (ipa ∈ columns df)
      then (inr (length σ),
            σ ++ [set_column ipa_len (str_len (column ipa (rows df))) df])
      else (inl (KeyError ipa), σ ++ [df])
  end.
Proof.
  unfold plot_ipa_length, copy. rewrite !bind_run. unfold deref at 1.
  destruct (σ !! l) as [df|]; [|done]. unfold alloc.
  rewrite bind_run. unfold getitem. rewrite bind_run. unfold deref.
  rewrite list_lookup_middle by done.
  destruct (decide (ipa ∈ columns df)); [|done]. simpl.
  rewrite bind_run. unfold setitem, mutate.
  rewrite list_lookup_middle by done. simpl.
  by rewrite insert_app_r_alt, Nat.sub_diag by done.
Qed.

(** C9.  The three plot functions leave every object the store holds as
    it is, the loaded table among them: [plot_variant_counts] and
    [plot_word_cards] change nothing at all, and [plot_ipa_length] only
    adds one new object, the copy, which alone gets the length column. *)
Theorem plots_leave_table l σ :
  (plot_variant_counts l σ).2 = σ ∧
  (∀ max_words, (plot_word_cards l max_words σ).2 = σ) ∧
  (∀ l' df, σ !! l' = Some df → (plot_ipa_length l σ).2 !! l' = Some df) ∧
  (∀ tmp σ', plot_ipa_length l σ = (inr tmp, σ') →
     tmp = length σ ∧
     ∃ df, σ !! l = Some df ∧
           σ' = σ ++ [set_column ipa_len (str_len (column ipa (rows df))) df]).
Proof.
  split; [|split; [|split]].
  - rewrite plot_variant_counts_run. destruct (σ !! l) as [df|]; [|done].
    by destruct (check_columns _ _ σ).1.
  - intros max_words. apply plot_word_cards_state.
  - intros l' df' Hl'. rewrite plot_ipa_length_run.
    destruct (σ !! l) as [df|]; [|done].
    case_decide; simpl; by apply lookup_app_l_Some.
  - intros tmp σ'. rewrite plot_ipa_length_run.
    destruct (σ !! l) as [df|]; [|done].
    case_decide; [|done]. intros [= <- <-]. eauto.
Qed.

Lemma outside_run (w : world) (s : step) σ :
  outside w s σ = if w s then (inl (StepFailed s), σ) else (inr (), σ).
Proof. unfold outside. by destruct (w s). Qed.

(** In a run of [main] the table that [load_data] returned is, after the
    three plots, what it was when it was returned. *)
Lemma main_leaves_loaded_table (w : world) (data_dir : directory scalar) σ res σ' :
  main w data_dir σ = (inr res, σ') →
  ∃ l σ1 data,
    load_data data_dir σ = (inr l, σ1) ∧ σ1 !! l = Some data ∧
    σ' !! l = Some data.
Proof.
  unfold main. rewrite bind_run, outside_run. destruct (w ParseArgs); [done|].
  rewrite bind_run, outside_run. destruct (w MakeOutdir); [done|].
  rewrite bind_run.
  destruct (load_data data_dir σ) as [[e|l] σ1] eqn:Hload; [done|].
  rewrite bind_run, outside_run. destruct (w SetTheme); [done|].
  rewrite bind_run.
  pose proof (plot_variant_counts_run l σ1) as Hc.
  destruct (σ1 !! l) as [data|] eqn:Hl; [|by rewrite Hc].
  destruct (plot_variant_counts l σ1) as [[e|counts] σ2]; [done|].
  assert (σ2 = σ1) as -> by (by destruct (check_columns _ _ σ1).1; simplify_eq).
  rewrite bind_run, outside_run. destruct (w DrawCounts); [done|].
  rewrite bind_run, plot_ipa_length_run, Hl.
  case_decide; [|done].
  rewrite bind_run, outside_run. destruct (w DrawLengths); [done|].
  rewrite bind_run.
  pose proof (plot_word_cards_state l 12
                (σ1 ++ [set_column ipa_len (str_len (column ipa (rows data))) data])) as Hs'.
  destruct (plot_word_cards l 12 _) as [[e|cards] σ3]; [done|].
  simpl in Hs'. subst σ3.
  rewrite bind_run, outside_run. destruct (w DrawCards); [done|].
  rewrite bind_run, outside_run. destruct (w Report); [done|].
  intros [= <- <-].
  exists l, σ1, data. split; [done|]. split; [done|]. by apply lookup_app_l_Some.
Qed.
End frame_facts.

(** ** Groups and their aggregates *)

Section group_facts.
Context `{Scalar scalar}.
Implicit Types (σ : store scalar) (df : DataFrame scalar) (r : row scalar).
Implicit Types (rs : list (row scalar)) (c : pystr) (l : loc).
Implicit Types (k : value scalar * value scalar) (lang wd v : value scalar).

Lemma key_of_Some c1 c2 r v1 v2 :
  key_of c1 c2 r = Some (v1, v2) ↔ r !! c1 = Some v1 ∧ r !! c2 = Some v2.
Proof.
  unfold key_of. destruct (r !! c1) as [x|]; simpl; [|naive_solver].
  destruct (r !! c2) as [y|]; simpl; naive_solver.
Qed.

Lemma elem_of_group_keys c1 c2 rs k :
  k ∈ group_keys c1 c2 rs ↔ ∃ r, r ∈ rs ∧ key_of c1 c2 r = Some k.
Proof.
  unfold group_keys. by rewrite elem_of_stable_sort, elem_of_unique, list_elem_of_omap.
Qed.

Lemma NoDup_group_keys c1 c2 rs : NoDup (group_keys c1 c2 rs).
Proof. unfold group_keys. rewrite stable_sort_perm. apply NoDup_unique. Qed.

Lemma elem_of_group_rows c1 c2 k rs r :
  r ∈ group_rows c1 c2 k rs ↔ r ∈ rs ∧ key_of c1 c2 r = Some k.
Proof. unfold group_rows. rewrite list_elem_of_filter. tauto. Qed.

Lemma elem_of_dropna_column c rs v :
  v ∈ dropna (column c rs) ↔ ∃ r, r ∈ rs ∧ r !! c = Some v.
Proof.
  unfold dropna, column. rewrite list_elem_of_omap. split.
  - intros (o & (r & -> & Hr)%list_elem_of_fmap & Ho). eauto.
  - intros (r & Hr & E). exists (r !! c). split; [|done].
    by apply list_elem_of_fmap_2.
Qed.

(** [nunique] on a column of a group is the number of distinct values
    the column has in the group. *)
Lemma nunique_group rs lang wd c :
  group_distinct rs lang wd c
    (nunique (column c (group_rows language word (lang, wd) rs))).
Proof.
  exists (unique (dropna (column c (group_rows language word (lang, wd) rs)))).
  split; [apply NoDup_unique|]. split; [|done].
  intros v. rewrite elem_of_unique, elem_of_dropna_column.
  setoid_rewrite elem_of_group_rows. setoid_rewrite key_of_Some.
  unfold in_group. naive_solver.
Qed.

Lemma group_distinct_unique rs rs' lang wd c n m :
  (∀ r, r ∈ rs ↔ r ∈ rs') →
  group_distinct rs lang wd c n → group_distinct rs' lang wd c m → n = m.
Proof.
  intros Hsame (e & He & Hin & ->) (e' & He' & Hin' & ->).
  apply Permutation_length, NoDup_Permutation; [done|done|].
  intros v. rewrite Hin, Hin'. by setoid_rewrite Hsame.
Qed.

Lemma counts_keys rs :
  counts_key <$> (agg_counts <$> groupby language word rs) =
  group_keys language word rs.
Proof.
  unfold groupby. rewrite <- !list_fmap_compose.
  rewrite <- (list_fmap_id (group_keys language word rs)) at 2.
  apply list_fmap_ext. by intros _ [lang wd] _.
Qed.

Lemma words_keys rs :
  words_key <$> (agg_words <$> groupby language word rs) =
  group_keys language word rs.
Proof.
  unfold groupby. rewrite <- !list_fmap_compose.
  rewrite <- (list_fmap_id (group_keys language word rs)) at 2.
  apply list_fmap_ext. by intros _ [lang wd] _.
Qed.

Lemma elem_of_counts rs (a : counts_row scalar) :
  a ∈ agg_counts <$> groupby language word rs ↔
  counts_key a ∈ group_keys language word rs ∧
  n_variants a = nunique (column ipa (group_rows language word (counts_key a) rs)) ∧
  n_senses a = nunique (column sense_id (group_rows language word (counts_key a) rs)).
Proof.
  unfold groupby. rewrite <- list_fmap_compose, list_elem_of_fmap. split.
  - intros (k & -> & Hk). by destruct k.
  - intros (Hk & Hv & Hs). exists (counts_key a). split; [|done].
    destruct a as [la wa nv ns]. unfold counts_key in *. cbn in *. by subst.
Qed.

Lemma elem_of_words rs (a : words_row scalar) :
  a ∈ agg_words <$> groupby language word rs ↔
  words_key a ∈ group_keys language word rs ∧
  w_n_variants a = nunique (column ipa (group_rows language word (words_key a) rs)).
Proof.
  unfold groupby. rewrite <- list_fmap_compose, list_elem_of_fmap. split.
  - intros (k & -> & Hk). by destruct k.
  - intros (Hk & Hv). exists (words_key a). split; [|done].
    destruct a as [la wa nv]. unfold words_key in *. cbn in *. by subst.
Qed.

(** What a successful [plot_variant_counts] returns. *)
Lemma plot_variant_counts_inv l σ data (counts : list (counts_row scalar)) :
  σ !! l = Some data → (plot_variant_counts l σ).1 = inr counts →
  counts = stable_sort counts_cmp (agg_counts <$> groupby language word (rows data)).
Proof.
  intros Hl. rewrite plot_variant_counts_run, Hl.
  destruct (check_columns _ _ σ).1; [done|]. by intros [= <-].
Qed.

Lemma counts_row_aggregates l σ data (counts : list (counts_row scalar)) a :
  σ !! l = Some data → (plot_variant_counts l σ).1 = inr counts → a ∈ counts →
  (∃ r, r ∈ rows data ∧ in_group (c_language a) (c_word a) r) ∧
  group_distinct (rows data) (c_language a) (c_word a) ipa (n_variants a) ∧
  group_distinct (rows data) (c_language a) (c_word a) sense_id (n_senses a).
Proof.
  intros Hl Hrun Ha. rewrite (plot_variant_counts_inv _ _ _ _ Hl Hrun) in Ha.
  apply elem_of_stable_sort, elem_of_counts in Ha as (Hk & -> & ->).
  split; [|split; apply nunique_group].
  apply elem_of_group_keys in Hk as (r & Hr & Hkey). exists r. split; [done|].
  by apply key_of_Some in Hkey.
Qed.

Lemma NoDup_two {A} (e : list A) a b :
  NoDup e → a ≠ b → (∀ x, x ∈ e ↔ x = a ∨ x = b) → length e = 2.
Proof.
  intros He Hab Hin. change 2 with (length [a; b]).
  apply Permutation_length, NoDup_Permutation; [done| |].
  - apply NoDup_cons. split; [by intros ->%list_elem_of_singleton|].
    apply NoDup_singleton.
  - intros x. rewrite Hin, !elem_of_cons, elem_of_nil. tauto.
Qed.

Lemma NoDup_one {A} (e : list A) a :
  NoDup e → (∀ x, x ∈ e ↔ x = a) → length e = 1.
Proof.
  intros He Hin. change 1 with (length [a]).
  apply Permutation_length, NoDup_Permutation; [done|apply NoDup_singleton|].
  intros x. by rewrite Hin, list_elem_of_singleton.
Qed.

(** C3.  For every row of [counts], [n_variants] is the number of
    distinct ipa values and [n_senses] the number of distinct sense_id
    values of the rows of its group.  So a group whose rows have one
    sense and two distinct ipa strings has [n_variants = 2] and
    [n_senses = 1]; and a table with the same rows, however often each is
    repeated, has the same aggregates in every group. *)
Theorem variant_counts_aggregates l σ data (counts : list (counts_row scalar)) :
  σ !! l = Some data → (plot_variant_counts l σ).1 = inr counts →
  (∀ a, a ∈ counts →
     group_distinct (rows data) (c_language a) (c_word a) ipa (n_variants a) ∧
     group_distinct (rows data) (c_language a) (c_word a) sense_id (n_senses a)) ∧
  (∀ a s i1 i2, a ∈ counts → i1 ≠ i2 →
     (∀ r, r ∈ rows data → in_group (c_language a) (c_word a) r →
           r !! sense_id = Some s ∧ (r !! ipa = Some i1 ∨ r !! ipa = Some i2)) →
     (∃ r, r ∈ rows data ∧ in_group (c_language a) (c_word a) r ∧ r !! ipa = Some i1) →
     (∃ r, r ∈ rows data ∧ in_group (c_language a) (c_word a) r ∧ r !! ipa = Some i2) →
     n_variants a = 2 ∧ n_senses a = 1) ∧
  (∀ l2 σ2 data2 (counts2 : list (counts_row scalar)),
     σ2 !! l2 = Some data2 → (∀ r, r ∈ rows data2 ↔ r ∈ rows data) →
     (plot_variant_counts l2 σ2).1 = inr counts2 →
     ∀ a2, a2 ∈ counts2 →
       ∃ a, a ∈ counts ∧ counts_key a = counts_key a2 ∧
            n_variants a = n_variants a2 ∧ n_senses a = n_senses a2).
Proof.
  intros Hl Hrun. split; [|split].
  - intros a Ha. by destruct (counts_row_aggregates _ _ _ _ a Hl Hrun Ha) as (_ & ? & ?).
  - intros a s i1 i2 Ha Hne Hall (r1 & Hr1 & Hg1 & Hi1) (r2 & Hr2 & Hg2 & Hi2).
    destruct (counts_row_aggregates _ _ _ _ a Hl Hrun Ha)
      as (_ & (e & He & Hin & ->) & (e' & He' & Hin' & ->)).
    split.
    + apply (NoDup_two e i1 i2); [done|done|]. intros v. rewrite Hin. split.
      * intros (r & Hr & Hg & Hv). destruct (Hall r Hr Hg) as [_ [E|E]];
          rewrite E in Hv; injection Hv as <-; tauto.
      * intros [->| ->]; eauto.
    + apply (NoDup_one e' s); [done|]. intros v. rewrite Hin'. split.
      * intros (r & Hr & Hg & Hv). destruct (Hall r Hr Hg) as [E _].
        rewrite E in Hv. by injection Hv as <-.
      * intros ->. exists r1. split; [done|]. split; [done|].
        by destruct (Hall r1 Hr1 Hg1).
  - intros l2 σ2 data2 counts2 Hl2 Hsame Hrun2 a2 Ha2.
    destruct (counts_row_aggregates _ _ _ _ a2 Hl2 Hrun2 Ha2)
      as ((r & Hr & Hg) & Hv2 & Hs2).
    set (a := agg_counts (counts_key a2, group_rows language word (counts_key a2) (rows data))).
    assert (a ∈ counts) as Ha.
    { rewrite (plot_variant_counts_inv _ _ _ _ Hl Hrun).
      apply elem_of_stable_sort, elem_of_counts. split; [|done].
      apply elem_of_group_keys. exists r. split; [by apply Hsame|].
      by apply key_of_Some. }
    exists a. split; [done|]. split; [done|].
    destruct (counts_row_aggregates _ _ _ _ a Hl Hrun Ha) as (_ & Hv & Hs).
    split.
    + apply (group_distinct_unique (rows data) (rows data2) _ _ ipa _ _
               (λ r', symmetry (Hsame r')) Hv Hv2).
    + apply (group_distinct_unique (rows data) (rows data2) _ _ sense_id _ _
               (λ r', symmetry (Hsame r')) Hs Hs2).
Qed.
End group_facts.

(** ** The order of the aggregated tables *)

Lemma StronglySorted_impl_in {A} (R R' : relation A) (l : list A) :
  StronglySorted R l → (∀ a b, a ∈ l → b ∈ l → R a b → R' a b) →
  StronglySorted R' l.
Proof.
  induction 1 as [|x l Hl IH Hx]; intros Himpl; [constructor|].
  constructor.
  - apply IH. intros a b Ha Hb. apply Himpl; by right.
  - rewrite Forall_forall in Hx |- *. intros y Hy.
    apply Himpl; [left|by right|by apply Hx].
Qed.

Section order_facts.
Context `{Scalar scalar}.
Implicit Types (σ : store scalar) (df : DataFrame scalar) (r : row scalar).
Implicit Types (rs : list (row scalar)) (c : pystr) (l : loc).
Implicit Types (data_dir : directory scalar).

(** On strings the comparison of cells is that of Python strings. *)
Lemma value_cmp_total_str :
  TotalCmpOn (λ v : value scalar, is_str v) value_cmp.
Proof.
  split.
  - intros [s|x] [t|y] Ha Hb; try done. by apply (@cmp_opp _ _ _ str_cmp_total).
  - intros [s|x] [t|y] [u|z] Ha Hb Hd; try done.
    by apply (@cmp_lt_trans _ _ _ str_cmp_total).
  - intros [s|x] [t|y] [u|z] Ha Hb Hd; try done.
    by apply (@cmp_eq_l _ _ _ str_cmp_total).
Qed.

(** On all cells it is a total preorder when the comparison of numbers
    is one. *)
Lemma value_cmp_total :
  TotalCmp (scalar_cmp (scalar:=scalar)) → TotalCmp (value_cmp (scalar:=scalar)).
Proof.
  intros Hs. split.
  - intros [s|x] [t|y] _ _; simpl; try done.
    + by apply (@cmp_opp _ _ _ str_cmp_total).
    + by apply (@cmp_opp _ _ _ Hs).
  - intros [s|x] [t|y] [u|z] _ _ _; simpl; try done.
    + by apply (@cmp_lt_trans _ _ _ str_cmp_total).
    + by apply (@cmp_lt_trans _ _ _ Hs).
  - intros [s|x] [t|y] [u|z] _ _ _; simpl; try done.
    + by apply (@cmp_eq_l _ _ _ str_cmp_total).
    + by apply (@cmp_eq_l _ _ _ Hs).
Qed.

Lemma pair_cmp_total :
  TotalCmp (scalar_cmp (scalar:=scalar)) → TotalCmp (pair_cmp (scalar:=scalar)).
Proof.
  intros Hs%value_cmp_total.
  apply (TotalCmp_then _ (λ a b : value scalar * value scalar, value_cmp a.1 b.1)
           (λ a b, value_cmp a.2 b.2));
    by apply (TotalCmp_on _ (λ _, True) _ value_cmp).
Qed.

Lemma Nat_compare_desc {A} (P : A → Prop) (f : A → nat) :
  TotalCmpOn P (λ a b, f b ?= f a).
Proof.
  apply (TotalCmp_flip P (λ a b, f a ?= f b)).
  by apply (TotalCmp_on P (λ _, True) f Nat.compare Nat_compare_total).
Qed.

Lemma counts_cmp_total :
  TotalCmpOn (λ a : counts_row scalar, str_key (counts_key a)) counts_cmp.
Proof.
  apply (TotalCmp_then _
           (λ a b : counts_row scalar, value_cmp (c_language a) (c_language b))
           (λ a b, cmp_then (n_variants b ?= n_variants a)
                     (cmp_then (n_senses b ?= n_senses a)
                        (value_cmp (c_word a) (c_word b))))).
  { apply (TotalCmp_on _ _ c_language value_cmp value_cmp_total_str).
    by intros a [? ?]. }
  apply (TotalCmp_then _
           (λ a b : counts_row scalar, n_variants b ?= n_variants a)
           (λ a b, cmp_then (n_senses b ?= n_senses a)
                     (value_cmp (c_word a) (c_word b)))).
  { apply Nat_compare_desc. }
  apply (TotalCmp_then _
           (λ a b : counts_row scalar, n_senses b ?= n_senses a)
           (λ a b, value_cmp (c_word a) (c_word b))).
  { apply Nat_compare_desc. }
  apply (TotalCmp_on _ _ c_word value_cmp value_cmp_total_str).
  by intros a [? ?].
Qed.

Lemma words_cmp_total :
  TotalCmpOn (λ a : words_row scalar, str_key (words_key a)) words_cmp.
Proof.
  apply (TotalCmp_then _
           (λ a b : words_row scalar, w_n_variants b ?= w_n_variants a)
           (λ a b, cmp_then (value_cmp (w_language a) (w_language b))
                     (value_cmp (w_word a) (w_word b)))).
  { apply Nat_compare_desc. }
  apply (TotalCmp_then _
           (λ a b : words_row scalar, value_cmp (w_language a) (w_language b))
           (λ a b, value_cmp (w_word a) (w_word b))).
  { apply (TotalCmp_on _ _ w_language value_cmp value_cmp_total_str).
    by intros a [? ?]. }
  apply (TotalCmp_on _ _ w_word value_cmp value_cmp_total_str).
  by intros a [? ?].
Qed.

Lemma value_cmp_str_eq (s t : pystr) :
  value_cmp (Str s : value scalar) (Str t) = Eq → s = t.
Proof. apply str_cmp_eq. Qed.

(** On rows whose keys are strings and differ, the comparison of
    [sort_values] in [plot_variant_counts] is the order [counts_before]. *)
Lemma counts_cmp_before (a b : counts_row scalar) :
  str_key (counts_key a) → str_key (counts_key b) →
  cmp_le counts_cmp a b → counts_key a ≠ counts_key b → counts_before a b.
Proof.
  destruct a as [[la|?] [wa|?] va sa], b as [[lb|?] [wb|?] vb sb];
    intros [? ?] [? ?]; try done. unfold cmp_le, counts_cmp, counts_before, counts_key, value_lt.
  cbn [c_language c_word n_variants n_senses].
  intros Hle Hne.
  destruct (value_cmp (Str la) (Str lb)) eqn:El; cbn [cmp_then] in Hle; [|by left|done].
  apply value_cmp_str_eq in El as ->. right. split; [done|].
  destruct (vb ?= va) eqn:Ev; cbn [cmp_then] in Hle; [|left|done].
  2:{ by apply Nat.compare_lt_iff in Ev. }
  apply Nat.compare_eq in Ev as ->. right. split; [done|].
  destruct (sb ?= sa) eqn:Es; cbn [cmp_then] in Hle; [|left|done].
  2:{ by apply Nat.compare_lt_iff in Es. }
  apply Nat.compare_eq in Es as ->. right. split; [done|].
  destruct (value_cmp (Str wa) (Str wb)) eqn:Ew; [|done|done].
  apply value_cmp_str_eq in Ew as ->. done.
Qed.

Lemma words_cmp_before (a b : words_row scalar) :
  str_key (words_key a) → str_key (words_key b) →
  cmp_le words_cmp a b → words_key a ≠ words_key b → words_before a b.
Proof.
  destruct a as [[la|?] [wa|?] va], b as [[lb|?] [wb|?] vb];
    intros [? ?] [? ?]; try done. unfold cmp_le, words_cmp, words_before, words_key, value_lt.
  cbn [w_language w_word w_n_variants].
  intros Hle Hne.
  destruct (vb ?= va) eqn:Ev; cbn [cmp_then] in Hle; [|left|done].
  2:{ by apply Nat.compare_lt_iff in Ev. }
  apply Nat.compare_eq in Ev as ->. right. split; [done|].
  destruct (value_cmp (Str la) (Str lb)) eqn:El; cbn [cmp_then] in Hle; [|by left|done].
  apply value_cmp_str_eq in El as ->. right. split; [done|].
  destruct (value_cmp (Str wa) (Str wb)) eqn:Ew; [|done|done].
  apply value_cmp_str_eq in Ew as ->. done.
Qed.

Lemma loaded_rows_str data_dir r c :
  r ∈ loaded_rows data_dir → c ∈ [word; language; ipa] →
  ∃ s, r !! c = Some (Str s).
Proof.
  unfold loaded_rows. intros (r0 & -> & _)%list_elem_of_fmap Hc.
  by apply loaded_row_str.
Qed.

Lemma loaded_keys_str data_dir (k : value scalar * value scalar) :
  k ∈ group_keys language word (loaded_rows data_dir) → str_key k.
Proof.
  unfold str_key.
  destruct k as [lang wd]. intros (r & Hr & [Hl Hw]%key_of_Some)%elem_of_group_keys.
  destruct (loaded_rows_str _ r language Hr) as [s Hs]; [rewrite !elem_of_cons; tauto|].
  destruct (loaded_rows_str _ r word Hr) as [t Ht]; [rewrite !elem_of_cons; tauto|].
  rewrite Hs in Hl. rewrite Ht in Hw. by simplify_eq.
Qed.

Lemma required_columns_loaded df (cs : list pystr) :
  (∀ c, c ∈ required → c ∈ columns df) → cs ⊆ [language; word; sense_id; meaning; ipa] →
  ∀ c, c ∈ cs → c ∈ columns df.
Proof. intros Hreq Hcs c Hc. apply Hreq, required_elem, Hcs, Hc. Qed.

(** C1.  On a loaded table [plot_variant_counts] returns a table
    [counts] with exactly one row for each pair of language and word that
    a row of the table has, none left out; the variant count and the
    sense count of a row are the numbers of distinct [ipa] and [sense_id]
    values of the rows of its group; and the rows are in the order:
    language ascending, then variant count descending, then sense count
    descending, then word ascending. *)
Theorem variant_counts_table data_dir σ l σ' :
  load_data data_dir σ = (inr l, σ') →
  ∃ data counts,
    σ' !! l = Some data ∧
    plot_variant_counts l σ' = (inr counts, σ') ∧
    NoDup (counts_key <$> counts) ∧
    (∀ lang wd, (lang, wd) ∈ counts_key <$> counts ↔
                ∃ r, r ∈ rows data ∧ in_group lang wd r) ∧
    (∀ a, a ∈ counts →
       group_distinct (rows data) (c_language a) (c_word a) ipa (n_variants a) ∧
       group_distinct (rows data) (c_language a) (c_word a) sense_id (n_senses a)) ∧
    StronglySorted counts_before counts.
Proof.
  intros Hrun.
  destruct (load_data_inv _ _ _ _ Hrun) as (data & Hdata & Hrows & Hreq & _).
  set (table := agg_counts <$> groupby language word (rows data)).
  exists data, (stable_sort counts_cmp table). split; [done|].
  assert (counts_key <$> stable_sort counts_cmp table ≡ₚ
          group_keys language word (rows data)) as Hkeys.
  { rewrite stable_sort_perm. unfold table. by rewrite counts_keys. }
  split; [|split; [|split; [|split]]].
  - rewrite plot_variant_counts_run, Hdata, check_columns_ok; [done|].
    apply (required_columns_loaded _ _ Hreq). set_solver.
  - rewrite Hkeys. apply NoDup_group_keys.
  - intros lang wd. rewrite Hkeys, elem_of_group_keys.
    by setoid_rewrite key_of_Some.
  - intros a Ha. unfold table in Ha.
    apply elem_of_stable_sort, elem_of_counts in Ha as (_ & -> & ->).
    split; apply nunique_group.
  - assert (∀ a, a ∈ table → str_key (counts_key a)) as Hstr.
    { intros a Ha. apply (loaded_keys_str data_dir (counts_key a)).
      rewrite <- Hrows. unfold table in Ha. rewrite <- counts_keys.
      by apply list_elem_of_fmap_2. }
    apply StronglySorted_impl_in
      with (R := λ a b, cmp_le counts_cmp a b ∧ counts_key a ≠ counts_key b).
    + apply StronglySorted_NoDup_key.
      * apply (@stable_sort_sorted _ _ _ counts_cmp_total). by apply Forall_forall.
      * rewrite Hkeys. apply NoDup_group_keys.
    + intros a b Ha%elem_of_stable_sort Hb%elem_of_stable_sort [Hle Hne].
      apply counts_cmp_before; auto.
Qed.
End order_facts.

(** ** The word cards *)

Section card_facts.
Context `{Scalar scalar}.
Implicit Types (σ : store scalar) (df : DataFrame scalar) (r : row scalar).
Implicit Types (rs : list (row scalar)) (c : pystr) (l : loc).
Implicit Types (data_dir : directory scalar) (w : words_row scalar).

Lemma for_each_pure {A B} (f : A → M scalar B) (g : A → B) (xs : list A) σ :
  (∀ a, a ∈ xs → f a σ = (inr (g a), σ)) →
  for_each f xs σ = (inr (g <$> xs), σ).
Proof.
  induction xs as [|a xs IH]; intros Hf; [done|].
  rewrite for_each_cons, Hf by left. rewrite IH; [done|].
  intros b Hb. apply Hf. by right.
Qed.

Lemma forallb_is_str (vs : list (value scalar)) :
  (∀ v, v ∈ vs → is_str v) → forallb is_str vs = true.
Proof.
  induction vs as [|v vs IH]; intros Hall; [done|]. simpl.
  rewrite IH by (intros x Hx; apply Hall; by right).
  specialize (Hall v (list_elem_of_here _ _)). by destruct (is_str v).
Qed.

Lemma elem_of_subset_rows lang wd rs r :
  r ∈ subset_rows lang wd rs ↔ r ∈ rs ∧ in_group lang wd r.
Proof. unfold subset_rows, in_group. rewrite list_elem_of_filter. tauto. Qed.

Lemma card_of_run l σ data w :
  σ !! l = Some data →
  (∀ c, c ∈ required → c ∈ columns data) →
  (∀ r, r ∈ rows data → ∃ s, r !! ipa = Some (Str s)) →
  card_of l w σ = (inr (make_card (rows data) w), σ).
Proof.
  intros Hl Hreq Hstr. unfold card_of. rewrite bind_run. unfold deref. rewrite Hl.
  rewrite bind_run, check_columns_ok
    by (apply (required_columns_loaded _ _ Hreq); set_solver).
  cbv zeta. rewrite bind_run, check_columns_ok
    by (apply (required_columns_loaded _ _ Hreq); set_solver).
  rewrite bind_run. unfold py_sorted. rewrite forallb_is_str.
  - cbn [orb]. unfold mret at 1, M_ret, ret.
    rewrite bind_run, check_columns_ok
      by (apply (required_columns_loaded _ _ Hreq); set_solver).
    done.
  - intros v (r & (Hr & _)%elem_of_subset_rows & Hv)%elem_of_unique%elem_of_dropna_column.
    destruct (Hstr r Hr) as [s Hs]. rewrite Hs in Hv. by injection Hv as <-.
Qed.

(** On a loaded table the selection and the cards are these. *)
Lemma plot_word_cards_run data_dir σ l σ' (max_words : Z) :
  load_data data_dir σ = (inr l, σ') →
  ∃ data,
    σ' !! l = Some data ∧ rows data = loaded_rows data_dir ∧
    let words :=
      head max_words
        (stable_sort words_cmp (agg_words <$> groupby language word (rows data))) in
    select_words l max_words σ' = (inr words, σ') ∧
    plot_word_cards l max_words σ' = (inr (make_card (rows data) <$> words), σ').
Proof.
  intros Hrun.
  destruct (load_data_inv _ _ _ _ Hrun) as (data & Hdata & Hrows & Hreq & _).
  exists data. split; [done|]. split; [done|]. cbv zeta.
  assert (select_words l max_words σ' =
          (inr (head max_words (stable_sort words_cmp
                  (agg_words <$> groupby language word (rows data)))), σ')) as Hsel.
  { rewrite select_words_run, Hdata, check_columns_ok; [done|].
    apply (required_columns_loaded _ _ Hreq). set_solver. }
  split; [done|]. unfold plot_word_cards. rewrite bind_run, Hsel.
  apply for_each_pure. intros w _. apply (card_of_run _ _ data); [done|done|].
  intros r Hr. rewrite Hrows in Hr. apply (loaded_rows_str _ r ipa Hr).
  rewrite !elem_of_cons. tauto.
Qed.

(** C2.  For a loaded table and a [max_words] that is a number of words
    (not negative; the script passes 12), [plot_word_cards] selects the first
    [min(max_words, number of groups)] groups of the table of all groups
    ordered by variant count descending, then language ascending, then
    word ascending, and builds one card for each, in this order. *)
Theorem word_cards_selection data_dir σ l σ' (max_words : Z) :
  load_data data_dir σ = (inr l, σ') → (0 ≤ max_words)%Z →
  ∃ data words rest cards,
    σ' !! l = Some data ∧
    select_words l max_words σ' = (inr words, σ') ∧
    plot_word_cards l max_words σ' = (inr cards, σ') ∧
    card_key <$> cards = words_key <$> words ∧
    NoDup (words_key <$> words ++ rest) ∧
    (∀ lang wd, (lang, wd) ∈ words_key <$> words ++ rest ↔
                ∃ r, r ∈ rows data ∧ in_group lang wd r) ∧
    (∀ w, w ∈ words ++ rest →
          group_distinct (rows data) (w_language w) (w_word w) ipa (w_n_variants w)) ∧
    StronglySorted words_before (words ++ rest) ∧
    length words = Z.to_nat max_words `min` length (words ++ rest).
Proof.
  intros Hrun Hpos.
  destruct (plot_word_cards_run _ _ _ _ max_words Hrun)
    as (data & Hdata & Hrows & Hsel & Hcards).
  set (table := agg_words <$> groupby language word (rows data)) in *.
  set (all := stable_sort words_cmp table) in *.
  assert (head max_words all = take (Z.to_nat max_words) all) as Hhead.
  { unfold head. by rewrite (proj2 (Z.leb_le 0 max_words) Hpos). }
  rewrite Hhead in Hsel, Hcards.
  exists data, (take (Z.to_nat max_words) all), (drop (Z.to_nat max_words) all).
  eexists. split; [done|]. split; [done|]. split; [done|].
  rewrite take_drop.
  assert (words_key <$> all ≡ₚ group_keys language word (rows data)) as Hkeys.
  { unfold all. rewrite stable_sort_perm. unfold table. by rewrite words_keys. }
  split; [|split; [|split; [|split; [|split]]]].
  - rewrite <- list_fmap_compose. by apply list_fmap_ext.
  - rewrite Hkeys. apply NoDup_group_keys.
  - intros lang wd. rewrite Hkeys, elem_of_group_keys.
    by setoid_rewrite key_of_Some.
  - intros w Hw. apply elem_of_stable_sort, elem_of_words in Hw as (_ & ->).
    apply nunique_group.
  - assert (∀ a, a ∈ table → str_key (words_key a)) as Hstr.
    { intros a Ha. apply (loaded_keys_str data_dir (words_key a)).
      rewrite <- Hrows. unfold table in Ha. rewrite <- words_keys.
      by apply list_elem_of_fmap_2. }
    apply StronglySorted_impl_in
      with (R := λ a b, cmp_le words_cmp a b ∧ words_key a ≠ words_key b).
    + apply StronglySorted_NoDup_key.
      * apply (@stable_sort_sorted _ _ _ words_cmp_total). by apply Forall_forall.
      * rewrite Hkeys. apply NoDup_group_keys.
    + intros a b Ha%elem_of_stable_sort Hb%elem_of_stable_sort [Hle Hne].
      apply words_cmp_before; auto.
  - apply length_take.
Qed.

Lemma value_cmp_lt_str (a b : value scalar) :
  is_str a → is_str b → cmp_le value_cmp a b → a ≠ b → value_lt a b.
Proof.
  destruct a as [s|?], b as [t|?]; try done. intros _ _ Hle Hne.
  unfold value_lt, cmp_le in *.
  destruct (value_cmp (Str s) (Str t)) eqn:E; [|done|done].
  apply value_cmp_str_eq in E as ->. done.
Qed.

Lemma pair_cmp_before (a b : value scalar * value scalar) :
  is_str a.1 → is_str b.1 → cmp_le pair_cmp a b → pair_before a b.
Proof.
  destruct a as [[s|?] m], b as [[t|?] n]; try done. intros _ _.
  unfold cmp_le, pair_cmp, pair_before, value_lt. cbn [fst snd].
  destruct (value_cmp (Str s) (Str t)) eqn:E; cbn [cmp_then]; [|by left|done].
  apply value_cmp_str_eq in E as ->. by right.
Qed.

Lemma elem_of_ipa_meaning_pairs rs (i m : value scalar) :
  (i, m) ∈ ipa_meaning_pairs rs ↔
  ∃ r, r ∈ rs ∧ r !! ipa = Some i ∧ r !! meaning = Some m.
Proof.
  unfold ipa_meaning_pairs. rewrite list_elem_of_omap.
  by setoid_rewrite key_of_Some.
Qed.

End card_facts.

Section card_content.
Context `{Scalar scalar} (Hnum : TotalCmp (scalar_cmp (scalar:=scalar))).
Implicit Types (σ : store scalar) (df : DataFrame scalar) (r : row scalar).
Implicit Types (rs : list (row scalar)) (c : pystr) (l : loc).
Implicit Types (data_dir : directory scalar) (w : words_row scalar).

(** C8.  For each selected group of a loaded table, the variant line of
    its card is the strictly ascending list of the ipa values that the
    rows of the group have, and its meaning lines are, without
    repetition and ordered by ipa and then by meaning, the pairs of ipa
    and meaning of the rows of the group in which neither is missing. *)
Theorem word_cards_content data_dir σ l σ' (max_words : Z) :
  load_data data_dir σ = (inr l, σ') →
  ∃ data words cards,
    σ' !! l = Some data ∧
    select_words l max_words σ' = (inr words, σ') ∧
    plot_word_cards l max_words σ' = (inr cards, σ') ∧
    Forall2 (λ w cd,
      card_key cd = words_key w ∧
      StronglySorted value_lt (card_ipas cd) ∧
      (∀ v, v ∈ card_ipas cd ↔
            ∃ r, r ∈ rows data ∧ in_group (w_language w) (w_word w) r ∧
                 r !! ipa = Some v) ∧
      NoDup (card_meanings cd) ∧
      StronglySorted pair_before (card_meanings cd) ∧
      (∀ i m, (i, m) ∈ card_meanings cd ↔
              ∃ r, r ∈ rows data ∧ in_group (w_language w) (w_word w) r ∧
                   r !! ipa = Some i ∧ r !! meaning = Some m))
      words cards.
Proof.
  intros Hrun.
  destruct (plot_word_cards_run _ _ _ _ max_words Hrun)
    as (data & Hdata & Hrows & Hsel & Hcards).
  eexists data, _, _. split; [done|]. split; [done|]. split; [done|].
  apply Forall2_fmap_r, Forall_Forall2_diag, Forall_forall. intros w _.
  set (subset := subset_rows (w_language w) (w_word w) (rows data)).
  assert (∀ r, r ∈ subset → ∃ s, r !! ipa = Some (Str s)) as Hstr.
  { intros r [Hr _]%elem_of_subset_rows. rewrite Hrows in Hr.
    apply (loaded_rows_str _ r ipa Hr). rewrite !elem_of_cons. tauto. }
  split; [done|]. unfold make_card. fold subset. cbn [card_ipas card_meanings].
  assert (∀ v, v ∈ stable_sort value_cmp (unique (dropna (column ipa subset))) ↔
               ∃ r, r ∈ rows data ∧ in_group (w_language w) (w_word w) r ∧
                    r !! ipa = Some v) as Hipas.
  { intros v. rewrite elem_of_stable_sort, elem_of_unique, elem_of_dropna_column.
    unfold subset. setoid_rewrite elem_of_subset_rows. naive_solver. }
  assert (∀ i m, (i, m) ∈ stable_sort pair_cmp (unique (ipa_meaning_pairs subset)) ↔
                 ∃ r, r ∈ rows data ∧ in_group (w_language w) (w_word w) r ∧
                      r !! ipa = Some i ∧ r !! meaning = Some m) as Hmeanings.
  { intros i m. rewrite elem_of_stable_sort, elem_of_unique, elem_of_ipa_meaning_pairs.
    unfold subset. setoid_rewrite elem_of_subset_rows. naive_solver. }
  assert (∀ r, r ∈ rows data → in_group (w_language w) (w_word w) r → r ∈ subset)
    as Hsub by (intros; by apply elem_of_subset_rows).
  split; [|split; [done|split; [|split; [|done]]]].
  - apply StronglySorted_impl_in with (R := λ a b, cmp_le value_cmp a b ∧ id a ≠ id b).
    + apply StronglySorted_NoDup_key.
      * apply (@stable_sort_sorted _ _ _ value_cmp_total_str), Forall_forall.
        intros v (r & Hr & Hv)%elem_of_unique%elem_of_dropna_column.
        destruct (Hstr r Hr) as [s Hs]. rewrite Hs in Hv. by injection Hv as <-.
      * rewrite list_fmap_id, stable_sort_perm. apply NoDup_unique.
    + intros a b (ra & Hra & Hga & Ha)%Hipas (rb & Hrb & Hgb & Hb)%Hipas [Hle Hne].
      destruct (Hstr ra (Hsub _ Hra Hga)) as [sa Hsa].
      destruct (Hstr rb (Hsub _ Hrb Hgb)) as [sb Hsb].
      rewrite Hsa in Ha. rewrite Hsb in Hb. simplify_eq.
      by apply value_cmp_lt_str.
  - rewrite stable_sort_perm. apply NoDup_unique.
  - eapply StronglySorted_impl_in.
    { apply (@stable_sort_sorted _ _ _ (pair_cmp_total Hnum)). by apply Forall_true. }
    intros [ia ma] [ib mb] (ra & Hra & Hga & Ha & _)%Hmeanings
      (rb & Hrb & Hgb & Hb & _)%Hmeanings Hle.
    destruct (Hstr ra (Hsub _ Hra Hga)) as [sa Hsa].
    destruct (Hstr rb (Hsub _ Hrb Hgb)) as [sb Hsb].
    rewrite Hsa in Ha. rewrite Hsb in Hb. simplify_eq.
    by apply pair_cmp_before.
Qed.
End card_content.

(** ** The statements at the sample data *)

Lemma sample_dir_inputs (p : pystr * file Z) :
  input_file sample_dir p →
  p = (lit "heteronyms_sv.csv", Csv file_sv) ∨
  p = (lit "heteronyms_en.csv", Csv file_en).
Proof.
  intros [Hin Hm]. unfold sample_dir in Hin.
  rewrite !elem_of_cons, elem_of_nil in Hin.
  destruct Hin as [->|[->|[->|[]]]]; [by left| |by right].
  apply glob_match_heteronyms in Hm. vm_compute in Hm. discriminate Hm.
Qed.

Lemma sample_dir_has_input :
  input_file sample_dir (lit "heteronyms_en.csv", Csv file_en).
Proof.
  split.
  - unfold sample_dir. rewrite !elem_of_cons. tauto.
  - by exists (lit "en").
Qed.

Lemma sample_dir_readable (p : pystr * file Z) : input_file sample_dir p → readable p.
Proof. intros [->| ->]%sample_dir_inputs; by eexists. Qed.

Lemma sample_dir_columns c :
  c ∈ required → ∃ p : pystr * file Z, input_file sample_dir p ∧ c ∈ file_columns p.
Proof.
  intros Hc%required_elem. eexists. split; [apply sample_dir_has_input|done].
Qed.

Lemma sample_dir_loads :
  load_data sample_dir [] = (inr 2, (load_data sample_dir []).2).
Proof. vm_compute. reflexivity. Qed.

Lemma gap_dir_loads :
  load_data gap_dir [] = (inr 1, (load_data gap_dir []).2).
Proof. vm_compute. reflexivity. Qed.

Lemma variant_counts_table_witness :
  let σ' := (load_data sample_dir []).2 in
  load_data sample_dir [] = (inr 2, σ') ∧
  ∃ data counts,
    σ' !! 2 = Some data ∧
    plot_variant_counts 2 σ' = (inr counts, σ') ∧
    NoDup (counts_key <$> counts) ∧
    (∀ lang wd, (lang, wd) ∈ counts_key <$> counts ↔
                ∃ r, r ∈ rows data ∧ in_group lang wd r) ∧
    (∀ a, a ∈ counts →
       group_distinct (rows data) (c_language a) (c_word a) ipa (n_variants a) ∧
       group_distinct (rows data) (c_language a) (c_word a) sense_id (n_senses a)) ∧
    StronglySorted counts_before counts.
Proof.
  intros σ'. split; [apply sample_dir_loads|].
  apply (@variant_counts_table Z Z_scalar sample_dir [] 2 σ').
  apply sample_dir_loads.
Defined.

Lemma word_cards_selection_witness :
  let σ' := (load_data sample_dir []).2 in
  (load_data sample_dir [] = (inr 2, σ') ∧ (0 ≤ 1)%Z) ∧
  ∃ data words rest cards,
    σ' !! 2 = Some data ∧
    select_words 2 1 σ' = (inr words, σ') ∧
    plot_word_cards 2 1 σ' = (inr cards, σ') ∧
    card_key <$> cards = words_key <$> words ∧
    NoDup (words_key <$> words ++ rest) ∧
    (∀ lang wd, (lang, wd) ∈ words_key <$> words ++ rest ↔
                ∃ r, r ∈ rows data ∧ in_group lang wd r) ∧
    (∀ w, w ∈ words ++ rest →
          group_distinct (rows data) (w_language w) (w_word w) ipa (w_n_variants w)) ∧
    StronglySorted words_before (words ++ rest) ∧
    length words = Z.to_nat 1 `min` length (words ++ rest).
Proof.
  intros σ'. split; [split; [apply sample_dir_loads|lia]|].
  apply (@word_cards_selection Z Z_scalar sample_dir [] 2 σ' 1);
    [apply sample_dir_loads|lia].
Defined.

Lemma variant_counts_aggregates_witness :
  let σ := [scenario_table] in
  let counts := [{| c_language := Str (lit "en"); c_word := Str (lit "read");
                    n_variants := 2; n_senses := 1 |}] in
  (σ !! 0 = Some scenario_table ∧ (plot_variant_counts 0 σ).1 = inr counts) ∧
  (∀ a, a ∈ counts →
     group_distinct (rows scenario_table) (c_language a) (c_word a) ipa (n_variants a) ∧
     group_distinct (rows scenario_table) (c_language a) (c_word a) sense_id (n_senses a)) ∧
  (∀ a s i1 i2, a ∈ counts → i1 ≠ i2 →
     (∀ r, r ∈ rows scenario_table → in_group (c_language a) (c_word a) r →
           r !! sense_id = Some s ∧ (r !! ipa = Some i1 ∨ r !! ipa = Some i2)) →
     (∃ r, r ∈ rows scenario_table ∧ in_group (c_language a) (c_word a) r ∧
           r !! ipa = Some i1) →
     (∃ r, r ∈ rows scenario_table ∧ in_group (c_language a) (c_word a) r ∧
           r !! ipa = Some i2) →
     n_variants a = 2 ∧ n_senses a = 1) ∧
  (∀ l2 σ2 data2 (counts2 : list (counts_row Z)),
     σ2 !! l2 = Some data2 → (∀ r, r ∈ rows data2 ↔ r ∈ rows scenario_table) →
     (plot_variant_counts l2 σ2).1 = inr counts2 →
     ∀ a2, a2 ∈ counts2 →
       ∃ a, a ∈ counts ∧ counts_key a = counts_key a2 ∧
            n_variants a = n_variants a2 ∧ n_senses a = n_senses a2).
Proof.
  intros σ counts.
  assert ((plot_variant_counts 0 σ).1 = inr counts) as Hrun
    by (vm_compute; reflexivity).
  split; [by split|].
  apply (@variant_counts_aggregates Z Z_scalar 0 σ scenario_table counts eq_refl Hrun).
Defined.

Lemma load_data_schema_witness :
  ((∃ p : pystr * file Z, input_file sample_dir p) ∧
   (∀ p : pystr * file Z, input_file sample_dir p → readable p)) ∧
  let absent c := ∀ p : pystr * file Z, input_file sample_dir p → c ∉ file_columns p in
  ((∃ missing, (load_data sample_dir []).1 = inl (MissingColumns missing)) ↔
   ∃ c, c ∈ required ∧ absent c) ∧
  (∀ missing, (load_data sample_dir []).1 = inl (MissingColumns missing) →
   ∀ c, c ∈ missing ↔ c ∈ required ∧ absent c) ∧
  ((∀ c, c ∈ required → ¬ absent c) →
   ∃ l, (load_data sample_dir []).1 = inr l).
Proof.
  split; [split; [eexists; apply sample_dir_has_input|apply sample_dir_readable]|].
  apply (@load_data_schema Z Z_scalar sample_dir []).
  - eexists. apply sample_dir_has_input.
  - apply sample_dir_readable.
Defined.

Lemma load_data_rows_witness :
  ((∃ p : pystr * file Z, input_file sample_dir p) ∧
   (∀ p : pystr * file Z, input_file sample_dir p → readable p) ∧
   (∀ c, c ∈ required →
         ∃ p : pystr * file Z, input_file sample_dir p ∧ c ∈ file_columns p)) ∧
  ∃ l σ' data,
    load_data sample_dir [] = (inr l, σ') ∧ σ' !! l = Some data ∧
    let files := input_files sample_dir in
    files ≡ₚ glob sample_dir (lit "heteronyms_*.csv") ∧
    (∀ p, p ∈ files ↔ input_file sample_dir p) ∧
    StronglySorted (λ p q, cmp_le str_cmp p.1 q.1) files ∧
    length (rows data) = sum_list ((λ p, length (file_rows p)) <$> files) ∧
    column source_file (rows data) =
      (p ← files; replicate (length (file_rows p)) (Some (Str p.1))) ∧
    rows data = loaded_row (tagged_rows files) <$> tagged_rows files.
Proof.
  split.
  - split; [eexists; apply sample_dir_has_input|].
    split; [apply sample_dir_readable|apply sample_dir_columns].
  - apply (@load_data_rows Z Z_scalar sample_dir []).
    + eexists. apply sample_dir_has_input.
    + apply sample_dir_readable.
    + apply sample_dir_columns.
Defined.

(** C6 as stated fails when one matching file is well formed and another
    cannot be read: [broken_dir] has the well-formed [heteronyms_b.csv],
    with every required column, and [load_data] returns no table, it
    raises the read error of [heteronyms_a.csv]. *)
Lemma load_data_one_well_formed_file :
  (∃ p : pystr * file Z,
     input_file broken_dir p ∧
     ∃ df, p.2 = Csv df ∧ ∀ c, c ∈ required → c ∈ columns df) ∧
  (load_data broken_dir []).1 = inl (ReadCsvError (lit "heteronyms_a.csv")) ∧
  ¬ ∃ l σ', load_data broken_dir [] = (inr l, σ').
Proof.
  split; [|split].
  - exists (lit "heteronyms_b.csv", Csv file_sv). split; [split|].
    + unfold broken_dir. rewrite !elem_of_cons. tauto.
    + by exists (lit "b").
    + exists file_sv. split; [done|]. by intros c Hc%required_elem.
  - vm_compute. reflexivity.
  - intros (l & σ' & E).
    assert ((load_data broken_dir []).1 = inr l) as E' by (by rewrite E).
    vm_compute in E'. discriminate E'.
Qed.

Lemma word_cards_content_witness :
  let σ' := (load_data gap_dir []).2 in
  (TotalCmp (scalar_cmp (scalar:=Z)) ∧ load_data gap_dir [] = (inr 1, σ')) ∧
  ∃ data words cards,
    σ' !! 1 = Some data ∧
    select_words 1 12 σ' = (inr words, σ') ∧
    plot_word_cards 1 12 σ' = (inr cards, σ') ∧
    Forall2 (λ w cd,
      card_key cd = words_key w ∧
      StronglySorted value_lt (card_ipas cd) ∧
      (∀ v, v ∈ card_ipas cd ↔
            ∃ r, r ∈ rows data ∧ in_group (w_language w) (w_word w) r ∧
                 r !! ipa = Some v) ∧
      NoDup (card_meanings cd) ∧
      StronglySorted pair_before (card_meanings cd) ∧
      (∀ i m, (i, m) ∈ card_meanings cd ↔
              ∃ r, r ∈ rows data ∧ in_group (w_language w) (w_word w) r ∧
                   r !! ipa = Some i ∧ r !! meaning = Some m))
      words cards.
Proof.
  intros σ'. split; [split; [apply Z_compare_total|apply gap_dir_loads]|].
  apply (@word_cards_content Z Z_scalar Z_compare_total gap_dir [] 1 σ' 12).
  apply gap_dir_loads.
Defined.

Lemma loaded_no_missing_witness :
  let σ' := (load_data gap_dir []).2 in
  load_data gap_dir [] = (inr 1, σ') ∧
  ∃ data,
    σ' !! 1 = Some data ∧
    (∀ r c, r ∈ rows data → c ∈ [language; word; ipa] →
            ∃ s, r !! c = Some (Str s)) ∧
    Forall2 (λ r0 r, ∀ c, c ∈ [language; word; ipa] → r0 !! c = None →
                          r !! c = Some (Str (lit "nan")))
      (tagged_rows (input_files gap_dir)) (rows data) ∧
    (∀ g, g ⊆ rows data → Some <$> dropna (column ipa g) = column ipa g) ∧
    (∀ g, g ⊆ rows data → distinct_count (column ipa g) (nunique (column ipa g))).
Proof.
  intros σ'. split; [apply gap_dir_loads|].
  apply (@loaded_no_missing Z Z_scalar gap_dir [] 1 σ'). apply gap_dir_loads.
Defined.

(** The sample with the missing ipa: the loaded cell is the string [nan],
    and it is counted as a second variant of the word. *)
Lemma gap_dir_counts :
  (plot_variant_counts 1 (load_data gap_dir []).2).1 =
  inr [{| c_language := Str (lit "en"); c_word := Str (lit "lead");
          n_variants := 2; n_senses := 2 |}].
Proof. vm_compute. reflexivity. Qed.

(** * Further properties *)

(** ** Stripping removes whitespace at the ends and nothing else *)

Lemma lstrip_split s :
  ∃ a, s = a ++ lstrip s ∧ Forall (λ c, py_isspace c = true) a.
Proof.
  induction s as [|c s (a & E & Ha)]; [by exists []|]. simpl.
  destruct (py_isspace c) eqn:Ec.
  - exists (c :: a). split; [by rewrite E at 1|]. by constructor.
  - by exists [].
Qed.

Lemma rstrip_split s :
  ∃ b, s = rstrip s ++ b ∧ Forall (λ c, py_isspace c = true) b.
Proof.
  induction s as [|c s (b & E & Hb)]; [by exists []|]. simpl.
  destruct (rstrip s) as [|d t] eqn:Er.
  - simpl in E. subst s. destruct (py_isspace c) eqn:Ec.
    + exists (c :: b). split; [done|]. by constructor.
    + by exists b.
  - exists b. split; [|done]. rewrite E at 1. done.
Qed.

Lemma rstrip_last s t c : rstrip s = t ++ [c] → py_isspace c = false.
Proof.
  revert t. induction s as [|d s IH]; intros t; simpl.
  - by destruct t.
  - destruct (rstrip s) as [|e u] eqn:Er.
    + destruct (py_isspace d) eqn:Ed; [by destruct t|].
      destruct t as [|? [|? ?]]; intros [= <-]; done.
    + destruct t as [|x t]; [done|]. intros [= <- E]. by apply (IH t).
Qed.

Lemma strip_trimmed s : trimmed (strip s).
Proof.
  unfold strip. split.
  - intros c t' E. pose proof (lstrip_head s) as Hh.
    destruct (lstrip s) as [|d u]; [done|].
    destruct (rstrip_head d u Hh) as [v Hv]. rewrite Hv in E. by simplify_eq.
  - intros t' c E. by eapply rstrip_last.
Qed.

Lemma strip_trim_of s : trim_of s (strip s).
Proof.
  unfold strip. destruct (lstrip_split s) as (a & Ea & Ha).
  destruct (rstrip_split (lstrip s)) as (b & Eb & Hb).
  exists a, b. split; [|done]. by rewrite <- Eb.
Qed.

(** ** Further properties of load_data *)

Section load_more.
Context `{Scalar scalar}.
Implicit Types (σ : store scalar) (df : DataFrame scalar) (r : row scalar).
Implicit Types (rs : list (row scalar)) (c : pystr) (l : loc).
Implicit Types (data_dir : directory scalar) (p : pystr * file scalar).

Lemma tagged_frame_readable p : readable p → is_Some (tagged_frame p).
Proof.
  intros [df E]. unfold tagged_frame, csv_frame. rewrite E. by eexists.
Qed.

Lemma tagged_frame_unreadable p : ¬ readable p → tagged_frame p = None.
Proof.
  intros Hn. unfold tagged_frame, csv_frame.
  destruct (p.2) as [|df] eqn:E; [done|]. destruct Hn. by exists df.
Qed.

Lemma readable_dec p : readable p ∨ ¬ readable p.
Proof.
  unfold readable. destruct (p.2) as [|df]; [right|left; eauto].
  by intros [? ?].
Qed.

Lemma first_unreadable (paths : list (pystr * file scalar)) :
  (∃ p, p ∈ paths ∧ ¬ readable p) →
  ∃ pre p post, paths = pre ++ p :: post ∧ Forall readable pre ∧ ¬ readable p.
Proof.
  induction paths as [|q paths IH]; intros (p & Hp & Hn).
  - by apply elem_of_nil in Hp.
  - destruct (readable_dec q) as [Hq|Hq].
    + destruct IH as (pre & p' & post & -> & Hpre & Hp').
      { exists p. split; [|done]. apply elem_of_cons in Hp as [->|?]; done. }
      exists (q :: pre), p', post. split; [done|]. split; [by constructor|done].
    + exists [], q, paths. split; [done|]. split; [constructor|done].
Qed.

Lemma read_loop_first_error pre p post σ :
  Forall readable pre → ¬ readable p →
  ∃ σ', for_each read_and_tag (pre ++ p :: post) σ = (inl (ReadCsvError p.1), σ').
Proof.
  intros Hpre Hp. revert σ. induction Hpre as [|q pre Hq _ IH]; intros σ.
  - rewrite app_nil_l, for_each_cons, read_and_tag_run, tagged_frame_unreadable by done.
    eauto.
  - rewrite <- app_comm_cons, for_each_cons, read_and_tag_run.
    destruct (tagged_frame_readable q Hq) as [f ->].
    destruct (IH (σ ++ [f])) as [σ' ->]. eauto.
Qed.

(** X1.  When some input file cannot be read, [load_data] raises the
    error of [pd.read_csv] for the first such file in the order of the
    names, whatever the other files hold. *)
Theorem load_data_read_error data_dir σ :
  (∃ p, input_file data_dir p ∧ ¬ readable p) →
  ∃ p σ', load_data data_dir σ = (inl (ReadCsvError p.1), σ') ∧
          input_file data_dir p ∧ ¬ readable p ∧
          ∀ q, input_file data_dir q → ¬ readable q → cmp_le str_cmp p.1 q.1.
Proof.
  intros (p0 & Hp0 & Hn0).
  destruct (first_unreadable (input_files data_dir)) as (pre & p & post & E & Hpre & Hp).
  { exists p0. by rewrite elem_of_input_files. }
  destruct (read_loop_first_error pre p post σ Hpre Hp) as [σ' Hrun].
  exists p, σ'. split; [|split; [|split; [done|]]].
  - unfold load_data. fold (input_files data_dir). by rewrite bind_run, E, Hrun.
  - apply elem_of_input_files. rewrite E. set_solver.
  - intros q Hq%elem_of_input_files Hnq. rewrite E in Hq.
    pose proof (input_files_sorted data_dir) as Hs. rewrite E in Hs.
    apply StronglySorted_app_1_r in Hs. apply StronglySorted_inv in Hs as [_ Hle].
    apply elem_of_app in Hq as [Hq|Hq].
    { destruct Hnq. by eapply (proj1 (Forall_forall _ _) Hpre). }
    apply elem_of_cons in Hq as [->|Hq].
    + unfold cmp_le. by rewrite str_cmp_refl.
    + by eapply (proj1 (Forall_forall _ _) Hle).
Qed.

Lemma load_data_frames data_dir σ l σ' :
  load_data data_dir σ = (inr l, σ') →
  ∃ frames, mapM tagged_frame (input_files data_dir) = Some frames ∧
            frames ≠ [] ∧
            σ' !! l = Some (normalize_frame (concat_frames frames)).
Proof.
  destruct (mapM tagged_frame (input_files data_dir)) as [frames|] eqn:Hf.
  - rewrite (load_data_run _ _ frames Hf). destruct frames as [|f frames]; [done|].
    cbv zeta. case_decide as Hm; [|done]. intros [= <- <-].
    exists (f :: frames). split; [done|]. split; [done|].
    apply (lookup_last_object σ (f :: frames)).
  - destruct (load_data_unreadable _ σ Hf) as (name & σ'' & ->). done.
Qed.

(** X2.  The table [load_data] returns has no column twice, and its
    columns are [source_file] and the columns of the input files: a
    column that only some files have is a column of the table. *)
Theorem loaded_columns data_dir σ l σ' :
  load_data data_dir σ = (inr l, σ') →
  ∃ data, σ' !! l = Some data ∧ NoDup (columns data) ∧
          ∀ c, c ∈ columns data ↔
               c = source_file ∨ ∃ p, input_file data_dir p ∧ c ∈ file_columns p.
Proof.
  intros (frames & Hf & Hne & Hl)%load_data_frames.
  eexists. split; [exact Hl|]. cbn [columns normalize_frame]. split.
  { unfold concat_frames. cbn [columns]. apply NoDup_unique. }
  intros c. destruct (decide (c = source_file)) as [->|Hc].
  - split; [by left|]. intros _. destruct frames as [|f frames]; [done|].
    apply elem_of_concat_columns. exists f. split; [left|].
    rewrite mapM_Some in Hf. apply Forall2_cons_inv_r in Hf as (p & ps & Hp & _ & _).
    apply tagged_frame_Some in Hp as (df & _ & ->). simpl.
    apply elem_of_add_column. by left.
  - rewrite (required_column_loaded _ _ _ Hf Hc). setoid_rewrite elem_of_input_files.
    naive_solver.
Qed.

(** X3.  In the table [load_data] returns, every [language], [word] and
    [ipa] cell is a text with no whitespace at either end, and where the
    file had a text in the cell it is this text without whitespace at its
    two ends: nothing inside the text is changed. *)
Theorem loaded_cells_trimmed data_dir σ l σ' :
  load_data data_dir σ = (inr l, σ') →
  ∃ data, σ' !! l = Some data ∧
    Forall2 (λ r0 r, ∀ c, c ∈ [language; word; ipa] →
               ∃ t, r !! c = Some (Str t) ∧ trimmed t ∧
                    ∀ s, r0 !! c = Some (Str s) → trim_of s t)
            (tagged_rows (input_files data_dir)) (rows data).
Proof.
  intros (data & Hl & Hrows & _)%load_data_inv. exists data. split; [done|].
  rewrite Hrows. unfold loaded_rows. cbv zeta.
  apply Forall2_fmap_r, Forall_Forall2_diag, Forall_forall. intros r _ c Hc.
  assert (c ∈ [word; language; ipa]) as Hc' by set_solver.
  unfold loaded_row. rewrite normalize_row_lookup by done.
  eexists. split; [done|]. split; [apply strip_trimmed|].
  intros s Hs. rewrite promote_row_lookup, Hs. simpl. apply strip_trim_of.
Qed.

Lemma tagged_named_rows (paths : list (pystr * file scalar)) :
  tagged_rows paths =
  (λ nr : pystr * row scalar, <[source_file := Str nr.1]> nr.2) <$> named_rows paths.
Proof.
  induction paths as [|p paths IH]; [done|].
  rewrite tagged_rows_cons, IH. unfold named_rows.
  change ((p :: paths) ≫= ?f) with (f p ++ (paths ≫= f)).
  rewrite fmap_app, <- list_fmap_compose. done.
Qed.

(** X4.  [load_data] leaves the columns other than [language], [word],
    [ipa] and [source_file] as they are in the files: a missing cell
    stays missing, a text stays the same text, and a number stays a
    number.  The [source_file] cell is the name of the file, also where
    the file had a [source_file] column of its own. *)
Theorem loaded_other_columns data_dir σ l σ' :
  load_data data_dir σ = (inr l, σ') →
  ∃ data, σ' !! l = Some data ∧
    Forall2 (λ (nr : pystr * row scalar) r,
               r !! source_file = Some (Str nr.1) ∧
               ∀ c, c ∉ [language; word; ipa; source_file] →
                 (nr.2 !! c = None → r !! c = None) ∧
                 (∀ s, nr.2 !! c = Some (Str s) → r !! c = Some (Str s)) ∧
                 (∀ x, nr.2 !! c = Some (Num x) → ∃ y, r !! c = Some (Num y)))
            (named_rows (input_files data_dir)) (rows data).
Proof.
  intros (data & Hl & Hrows & _)%load_data_inv. exists data. split; [done|].
  rewrite Hrows. unfold loaded_rows. cbv zeta.
  rewrite tagged_named_rows at 2. rewrite <- list_fmap_compose.
  apply Forall2_fmap_r, Forall_Forall2_diag, Forall_forall. intros [name r0] _.
  unfold compose. cbn [fst snd]. split; [apply loaded_row_source_file|].
  intros c Hc.
  assert (c ∉ [word; language; ipa]) as Hc' by set_solver.
  assert (c ≠ source_file) as Hne by set_solver.
  unfold loaded_row.
  rewrite normalize_row_other, promote_row_lookup, lookup_insert_ne by done.
  split; [by intros ->|]. split; [by intros s ->|]. intros x ->. simpl. eauto.
Qed.
End load_more.

(** ** Further properties of the plot functions *)

Section sums.
Context {A K : Type} `{EqDecision K}.
Implicit Types (f : A → option K) (ks : list K) (xs : list A).

Lemma sum_list_with_fmap {B} (g : B → nat) (h : A → B) xs :
  sum_list_with g (h <$> xs) = sum_list_with (g ∘ h) xs.
Proof.
  induction xs as [|x xs IH]; [done|].
  rewrite fmap_cons. cbn [sum_list_with]. by rewrite IH.
Qed.

Lemma sum_list_with_ext (g g' : K → nat) ks :
  (∀ k, k ∈ ks → g k = g' k) → sum_list_with g ks = sum_list_with g' ks.
Proof.
  induction ks as [|k ks IH]; intros Hg; simpl; [done|].
  rewrite Hg by left. rewrite IH; [done|]. intros k' Hk'. apply Hg. by right.
Qed.

Lemma sum_list_with_bump (g : K → nat) k0 ks :
  NoDup ks → k0 ∈ ks →
  sum_list_with (λ k, if decide (k = k0) then S (g k) else g k) ks =
  S (sum_list_with g ks).
Proof.
  induction 1 as [|k ks Hk Hnd IH]; intros Hin; [by apply elem_of_nil in Hin|].
  simpl. destruct (decide (k = k0)) as [->|Hne].
  - simpl. f_equal. f_equal. apply sum_list_with_ext.
    intros k' Hk'. rewrite decide_False; [done|]. by intros ->.
  - apply elem_of_cons in Hin as [->|Hin]; [done|]. rewrite IH by done. lia.
Qed.

(** The groups of a list under a key split the elements that have a key:
    their sizes add up to the number of these elements. *)
Lemma group_sizes_sum f ks xs :
  NoDup ks → (∀ x k, x ∈ xs → f x = Some k → k ∈ ks) →
  sum_list_with (λ k, length (filter (λ x, f x = Some k) xs)) ks =
  length (filter (λ x, is_Some (f x)) xs).
Proof.
  intros Hnd. induction xs as [|x xs IH]; intros Hks.
  - simpl. induction ks as [|k ks IHk]; simpl; [done|].
    apply IHk; [by apply NoDup_cons in Hnd as [_ ?]|]. by intros ? ? ?%elem_of_nil.
  - rewrite filter_cons. destruct (f x) as [k0|] eqn:Ex.
    + rewrite decide_True by eauto. cbn [length]. rewrite <- IH.
      2:{ intros y k Hy. apply Hks. by right. }
      rewrite <- (sum_list_with_bump _ k0) by (eauto using list_elem_of_here).
      apply sum_list_with_ext. intros k _. rewrite filter_cons, Ex.
      destruct (decide (k = k0)) as [->|Hne].
      * by rewrite decide_True.
      * rewrite decide_False; [done|]. by intros [= ->].
    + rewrite decide_False by (by intros [? ?]). rewrite <- IH.
      2:{ intros y k Hy. apply Hks. by right. }
      apply sum_list_with_ext. intros k _. rewrite filter_cons, Ex.
      by rewrite decide_False.
Qed.
End sums.

Section plots_more.
Context `{Scalar scalar}.
Implicit Types (σ : store scalar) (df : DataFrame scalar) (r : row scalar).
Implicit Types (rs : list (row scalar)) (c : pystr) (l : loc).
Implicit Types (data_dir : directory scalar) (w : words_row scalar).

Lemma set_cells_fmap c (g : row scalar → cell scalar) rs :
  set_cells c (g <$> rs) rs = (λ r, set_cell c (g r) r) <$> rs.
Proof.
  induction rs as [|r rs IH]; [done|].
  rewrite !fmap_cons. cbn [set_cells]. by rewrite IH.
Qed.

Lemma subset_rows_group lang wd rs :
  subset_rows lang wd rs = group_rows language word (lang, wd) rs.
Proof.
  unfold subset_rows, group_rows. apply list_filter_iff. intros r.
  by rewrite key_of_Some.
Qed.

Lemma length_unique_le {A} `{EqDecision A} (xs : list A) :
  length (unique xs) ≤ length xs.
Proof.
  unfold unique. generalize (@nil A) as seen.
  induction xs as [|x xs IH]; intros seen; simpl; [done|].
  case_decide; simpl; [specialize (IH seen)|specialize (IH (x :: seen))]; lia.
Qed.

Lemma length_omap_le {A B} (f : A → option B) (xs : list A) :
  length (omap f xs) ≤ length xs.
Proof.
  induction xs as [|x xs IH]; [done|]. cbn [omap list_omap].
  destruct (f x); simpl; lia.
Qed.

Lemma nunique_le c rs : nunique (column c rs) ≤ length rs.
Proof.
  unfold nunique, dropna, column. etrans; [apply length_unique_le|].
  etrans; [apply length_omap_le|]. by rewrite length_fmap.
Qed.

Lemma nunique_zero c rs : nunique (column c rs) = 0 ↔ ∀ r, r ∈ rs → r !! c = None.
Proof.
  unfold nunique. rewrite length_zero_iff_nil. split.
  - intros E r Hr. destruct (r !! c) as [v|] eqn:Ev; [|done].
    assert (v ∈ unique (dropna (column c rs))) as Hv.
    { apply elem_of_unique, elem_of_dropna_column. eauto. }
    rewrite E in Hv. by apply elem_of_nil in Hv.
  - intros Hnone. destruct (unique _) as [|v vs] eqn:E; [done|].
    assert (v ∈ unique (dropna (column c rs))) as Hv by (rewrite E; left).
    apply elem_of_unique, elem_of_dropna_column in Hv as (r & Hr & Hv).
    by rewrite Hnone in Hv.
Qed.

(** X5.  On a loaded table [plot_ipa_length] returns a new table that has
    the columns of the loaded table and [ipa_len], and whose rows are the
    rows of the loaded table, in their order, each with the number of
    code points of its [ipa] text in [ipa_len]. *)
Theorem ipa_length_table data_dir σ l σ' :
  load_data data_dir σ = (inr l, σ') →
  ∃ data t,
    σ' !! l = Some data ∧
    plot_ipa_length l σ' = (inr (length σ'), σ' ++ [t]) ∧
    (∀ c, c ∈ columns t ↔ c = ipa_len ∨ c ∈ columns data) ∧
    Forall2 (λ r r', ∃ s, r !! ipa = Some (Str s) ∧
                          r' = <[ipa_len := Num (scalar_of_nat (length s))]> r)
            (rows data) (rows t).
Proof.
  intros (data & Hl & Hrows & Hreq & _)%load_data_inv.
  exists data. eexists. split; [done|].
  rewrite plot_ipa_length_run, Hl.
  rewrite decide_True by (apply Hreq, required_elem; set_solver).
  split; [done|]. cbn [columns rows set_column]. split.
  { intros c. apply elem_of_add_column. }
  unfold str_len, column. rewrite <- list_fmap_compose, set_cells_fmap.
  apply Forall2_fmap_r, Forall_Forall2_diag, Forall_forall. intros r Hr.
  rewrite Hrows in Hr. destruct (loaded_rows_str _ r ipa Hr) as [s Hs]; [set_solver|].
  exists s. split; [done|]. simpl. by rewrite Hs.
Qed.

(** X7.  In the table [plot_variant_counts] returns for any table, every
    row stands for a group with at least one row, neither count is larger
    than the number of rows of the group, and a count is zero exactly
    when the column is missing in every row of the group. *)
Theorem variant_counts_bounds l σ data (counts : list (counts_row scalar)) a :
  σ !! l = Some data → (plot_variant_counts l σ).1 = inr counts → a ∈ counts →
  let group := subset_rows (c_language a) (c_word a) (rows data) in
  1 ≤ length group ∧
  n_variants a ≤ length group ∧ n_senses a ≤ length group ∧
  (n_variants a = 0 ↔ ∀ r, r ∈ group → r !! ipa = None) ∧
  (n_senses a = 0 ↔ ∀ r, r ∈ group → r !! sense_id = None).
Proof.
  intros Hl Hrun Ha. rewrite (plot_variant_counts_inv _ _ _ _ Hl Hrun) in Ha.
  apply elem_of_stable_sort, elem_of_counts in Ha as (Hk & -> & ->).
  cbv zeta. rewrite subset_rows_group. change (c_language a, c_word a) with (counts_key a).
  split; [|split; [|split; [|split]]].
  - apply elem_of_group_keys in Hk as (r & Hr & Hkey).
    assert (r ∈ group_rows language word (counts_key a) (rows data)) as Hin
      by (by apply elem_of_group_rows).
    destruct (group_rows _ _ _ _); [by apply elem_of_nil in Hin|simpl; lia].
  - apply nunique_le.
  - apply nunique_le.
  - apply nunique_zero.
  - apply nunique_zero.
Qed.

Lemma filter_all {A} (P : A → Prop) `{∀ x, Decision (P x)} (xs : list A) :
  (∀ x, x ∈ xs → P x) → filter P xs = xs.
Proof.
  induction xs as [|x xs IH]; intros HP; [done|].
  rewrite filter_cons, decide_True by (apply HP; left).
  rewrite IH; [done|]. intros y Hy. apply HP. by right.
Qed.

Lemma group_sizes_cover rs :
  sum_list_with (λ a, length (subset_rows (c_language a) (c_word a) rs))
    (stable_sort counts_cmp (agg_counts <$> groupby language word rs)) =
  length (filter (λ r, is_Some (r !! language) ∧ is_Some (r !! word)) rs).
Proof.
  rewrite stable_sort_perm. unfold groupby.
  rewrite <- list_fmap_compose, sum_list_with_fmap.
  rewrite (sum_list_with_ext _
    (λ k, length (filter (λ r, key_of language word r = Some k) rs))).
  2:{ intros [lang wd] _. simpl. by rewrite subset_rows_group. }
  rewrite group_sizes_sum.
  - f_equal. apply list_filter_iff. intros r. unfold key_of.
    destruct (r !! language), (r !! word); simpl; split;
      try (intros [[? ?] [? ?]]); try (intros [? ?]); try done; eauto.
  - apply NoDup_group_keys.
  - intros r k Hr Hk. apply elem_of_group_keys. eauto.
Qed.

(** X8.  The groups of [plot_variant_counts] split the rows that have a
    language and a word: the sizes of the groups add up to the number of
    these rows, so a row with a missing language or word is counted in no
    group, and there are at most as many groups as rows. *)
Theorem variant_counts_partition l σ data (counts : list (counts_row scalar)) :
  σ !! l = Some data → (plot_variant_counts l σ).1 = inr counts →
  sum_list_with (λ a, length (subset_rows (c_language a) (c_word a) (rows data))) counts =
    length (filter (λ r, is_Some (r !! language) ∧ is_Some (r !! word)) (rows data)) ∧
  length counts ≤ length (rows data).
Proof.
  intros Hl Hrun. rewrite (plot_variant_counts_inv _ _ _ _ Hl Hrun). split.
  - apply group_sizes_cover.
  - rewrite length_stable_sort, length_fmap. unfold groupby, group_keys.
    rewrite length_fmap, length_stable_sort.
    etrans; [apply length_unique_le|]. apply length_omap_le.
Qed.

(** X14.  On a loaded table no row is left out of the counts: a row
    whose language or word was missing in the file has the text [nan]
    there and is counted with the others, so every row is in the group of
    some row of [counts] and the sizes of the groups add up to the number
    of rows of the table. *)
Theorem loaded_counts_cover data_dir σ l σ' :
  load_data data_dir σ = (inr l, σ') →
  ∃ data counts,
    σ' !! l = Some data ∧
    plot_variant_counts l σ' = (inr counts, σ') ∧
    (∀ r, r ∈ rows data →
          ∃ a, a ∈ counts ∧ in_group (c_language a) (c_word a) r) ∧
    sum_list_with (λ a, length (subset_rows (c_language a) (c_word a) (rows data)))
      counts = length (rows data).
Proof.
  intros (data & Hl & Hrows & Hreq & _)%load_data_inv.
  exists data. eexists. split; [done|]. split.
  { rewrite plot_variant_counts_run, Hl, check_columns_ok; [done|].
    apply (required_columns_loaded _ _ Hreq). set_solver. }
  assert (∀ r, r ∈ rows data →
            ∃ lang wd, r !! language = Some (Str lang) ∧ r !! word = Some (Str wd))
    as Hkeys.
  { intros r Hr. rewrite Hrows in Hr.
    destruct (loaded_rows_str _ r language Hr) as [lang Hlang]; [set_solver|].
    destruct (loaded_rows_str _ r word Hr) as [wd Hwd]; [set_solver|]. eauto. }
  split.
  - intros r Hr. destruct (Hkeys r Hr) as (lang & wd & Hlang & Hwd).
    exists {| c_language := Str lang; c_word := Str wd;
              n_variants := nunique (column ipa
                (group_rows language word (Str lang, Str wd) (rows data)));
              n_senses := nunique (column sense_id
                (group_rows language word (Str lang, Str wd) (rows data))) |}.
    split; [|done]. apply elem_of_stable_sort, elem_of_counts.
    split; [|done]. apply elem_of_group_keys. exists r. split; [done|].
    by apply key_of_Some.
  - rewrite group_sizes_cover. f_equal. apply filter_all.
    intros r Hr. destruct (Hkeys r Hr) as (lang & wd & -> & ->). eauto.
Qed.
End plots_more.

(** ** Further properties of the word cards and of main *)

Section cards_more.
Context `{Scalar scalar}.
Implicit Types (σ : store scalar) (df : DataFrame scalar) (r : row scalar).
Implicit Types (rs : list (row scalar)) (c : pystr) (l : loc).
Implicit Types (data_dir : directory scalar) (w : words_row scalar).

Lemma elem_of_head {A} (n : Z) (xs : list A) x : x ∈ head n xs → x ∈ xs.
Proof. unfold head. destruct (0 <=? n)%Z; apply subseteq_take. Qed.

(** The selection and the cards on any store that holds a table with
    the required columns and text in every [ipa] cell. *)
Lemma plot_word_cards_on l σ data (max_words : Z) :
  σ !! l = Some data →
  (∀ c, c ∈ required → c ∈ columns data) →
  (∀ r, r ∈ rows data → ∃ s, r !! ipa = Some (Str s)) →
  let words := head max_words (ranked_words (rows data)) in
  select_words l max_words σ = (inr words, σ) ∧
  plot_word_cards l max_words σ = (inr (make_card (rows data) <$> words), σ).
Proof.
  intros Hl Hreq Hstr. cbv zeta.
  assert (select_words l max_words σ =
          (inr (head max_words (ranked_words (rows data))), σ)) as Hsel.
  { rewrite select_words_run, Hl, check_columns_ok; [done|].
    apply (required_columns_loaded _ _ Hreq). set_solver. }
  split; [done|]. unfold plot_word_cards. rewrite bind_run, Hsel.
  apply for_each_pure. intros w _. by apply (card_of_run _ _ data).
Qed.

Lemma loaded_table_ipa data_dir r :
  r ∈ loaded_rows data_dir → ∃ s, r !! ipa = Some (Str s).
Proof. intros Hr. apply (loaded_rows_str _ r ipa Hr). set_solver. Qed.

(** X9.  On a loaded table every card agrees with the row of [words] it
    is built from: it lists as many pronunciations as the row's variant
    count, at least one, and every meaning line stands under a
    pronunciation that the card lists. *)
Theorem word_cards_consistent data_dir σ l σ' (max_words : Z) :
  load_data data_dir σ = (inr l, σ') →
  ∃ words cards,
    select_words l max_words σ' = (inr words, σ') ∧
    plot_word_cards l max_words σ' = (inr cards, σ') ∧
    Forall2 (λ w cd,
               card_key cd = words_key w ∧
               length (card_ipas cd) = w_n_variants w ∧
               1 ≤ length (card_ipas cd) ∧
               ∀ i m, (i, m) ∈ card_meanings cd → i ∈ card_ipas cd)
            words cards.
Proof.
  intros (data & Hl & Hrows & Hreq & _)%load_data_inv.
  assert (∀ r, r ∈ rows data → ∃ s, r !! ipa = Some (Str s)) as Hstr.
  { intros r Hr. rewrite Hrows in Hr. by eapply loaded_table_ipa. }
  destruct (plot_word_cards_on l σ' data max_words Hl Hreq Hstr) as [Hsel Hcards].
  eexists _, _. split; [exact Hsel|]. split; [exact Hcards|].
  apply Forall2_fmap_r, Forall_Forall2_diag, Forall_forall. intros w Hw.
  apply elem_of_head in Hw. unfold ranked_words in Hw.
  apply elem_of_stable_sort, elem_of_words in Hw as (Hk & Hn).
  unfold compose, make_card. cbv beta zeta. cbn [card_ipas card_meanings].
  rewrite length_stable_sort, subset_rows_group.
  change (w_language w, w_word w) with (words_key w).
  change (length (unique (dropna ?s))) with (nunique s).
  rewrite <- Hn. split; [done|]. split; [done|]. split.
  - destruct (w_n_variants w) as [|n] eqn:E; [|lia]. exfalso.
    symmetry in Hn.
    apply elem_of_group_keys in Hk as (r & Hr & Hkey).
    pose proof (proj1 (nunique_zero _ _) Hn r) as Hnone.
    destruct (Hstr r Hr) as [s Hs]. rewrite Hnone in Hs; [done|].
    by apply elem_of_group_rows.
  - intros i m (r & Hr & Hi & _)%elem_of_stable_sort%elem_of_unique%elem_of_ipa_meaning_pairs.
    apply elem_of_stable_sort, elem_of_unique, elem_of_dropna_column. eauto.
Qed.

(** The table of all groups of a loaded table: one row for each pair of
    language and word, with its variant count, in the order of
    [plot_word_cards]. *)
Lemma ranked_words_loaded data_dir :
  let rs := loaded_rows data_dir in
  let all := ranked_words rs in
  NoDup (words_key <$> all) ∧
  (∀ lang wd, (lang, wd) ∈ words_key <$> all ↔ ∃ r, r ∈ rs ∧ in_group lang wd r) ∧
  (∀ w, w ∈ all → group_distinct rs (w_language w) (w_word w) ipa (w_n_variants w)) ∧
  StronglySorted words_before all.
Proof.
  intros rs all. set (table := agg_words <$> groupby language word rs).
  assert (words_key <$> all ≡ₚ group_keys language word rs) as Hkeys.
  { unfold all, ranked_words. rewrite stable_sort_perm. by rewrite words_keys. }
  split; [|split; [|split]].
  - rewrite Hkeys. apply NoDup_group_keys.
  - intros lang wd. rewrite Hkeys, elem_of_group_keys.
    by setoid_rewrite key_of_Some.
  - intros w Hw. apply elem_of_stable_sort, elem_of_words in Hw as (_ & ->).
    apply nunique_group.
  - assert (∀ a, a ∈ table → str_key (words_key a)) as Hstr.
    { intros a Ha. apply (loaded_keys_str data_dir (words_key a)).
      unfold table in Ha. fold rs. rewrite <- words_keys.
      by apply list_elem_of_fmap_2. }
    apply StronglySorted_impl_in
      with (R := λ a b, cmp_le words_cmp a b ∧ words_key a ≠ words_key b).
    + apply StronglySorted_NoDup_key.
      * apply (@stable_sort_sorted _ _ _ words_cmp_total). by apply Forall_forall.
      * rewrite Hkeys. apply NoDup_group_keys.
    + intros a b Ha%elem_of_stable_sort Hb%elem_of_stable_sort [Hle Hne].
      apply words_cmp_before; auto.
Qed.

(** X10.  On a loaded table let [all] be the table of all groups: one
    row for each pair of language and word that a row of the table has,
    with the number of distinct [ipa] values of the group, in the order
    variant count descending, then language ascending, then word
    ascending.  For a negative [max_words] the selection is [all]
    without its last [-max_words] rows, and there is one card for each
    selected row, in this order.  [all] itself is the selection when
    [max_words] is the number of rows of the table. *)
Theorem word_cards_negative data_dir σ l σ' (max_words : Z) :
  load_data data_dir σ = (inr l, σ') → (max_words < 0)%Z →
  ∃ data all words cards,
    σ' !! l = Some data ∧
    NoDup (words_key <$> all) ∧
    (∀ lang wd, (lang, wd) ∈ words_key <$> all ↔
                ∃ r, r ∈ rows data ∧ in_group lang wd r) ∧
    (∀ w, w ∈ all →
          group_distinct (rows data) (w_language w) (w_word w) ipa (w_n_variants w)) ∧
    StronglySorted words_before all ∧
    select_words l (Z.of_nat (length (rows data))) σ' = (inr all, σ') ∧
    select_words l max_words σ' = (inr words, σ') ∧
    plot_word_cards l max_words σ' = (inr cards, σ') ∧
    words = take (length all - Z.to_nat (- max_words)) all ∧
    card_key <$> cards = words_key <$> words.
Proof.
  intros (data & Hl & Hrows & Hreq & _)%load_data_inv Hneg.
  assert (∀ r, r ∈ rows data → ∃ s, r !! ipa = Some (Str s)) as Hstr.
  { intros r Hr. rewrite Hrows in Hr. by eapply loaded_table_ipa. }
  destruct (plot_word_cards_on l σ' data max_words Hl Hreq Hstr) as [Hsel Hcards].
  destruct (plot_word_cards_on l σ' data (Z.of_nat (length (rows data))) Hl Hreq Hstr)
    as [Hall _].
  destruct (ranked_words_loaded data_dir) as (Hnd & Hin & Hcnt & Hsorted).
  rewrite <- Hrows in Hnd, Hin, Hcnt, Hsorted.
  set (all := ranked_words (rows data)) in *.
  assert (length all ≤ length (rows data)) as Hlen.
  { unfold all, ranked_words, groupby, group_keys.
    rewrite length_stable_sort, !length_fmap, length_stable_sort.
    etrans; [apply length_unique_le|]. apply length_omap_le. }
  assert (head (Z.of_nat (length (rows data))) all = all) as Hfull.
  { unfold head. rewrite (proj2 (Z.leb_le 0 _)) by lia.
    rewrite Nat2Z.id. by apply take_ge. }
  assert (head max_words all = take (length all - Z.to_nat (- max_words)) all) as Hhead.
  { unfold head. by rewrite (proj2 (Z.leb_gt _ _)) by lia. }
  rewrite Hfull in Hall. rewrite Hhead in Hsel, Hcards.
  exists data, all. eexists _, _. split; [done|]. split; [done|]. split; [done|].
  split; [done|]. split; [done|]. split; [done|].
  split; [exact Hsel|]. split; [exact Hcards|]. split; [done|].
  rewrite <- list_fmap_compose. by apply list_fmap_ext.
Qed.

(** X11.  On a loaded table a larger [max_words] only adds groups and
    cards at the end: for [0 ≤ m1 ≤ m2] the selection and the cards for
    [m1] are the first ones of the selection and the cards for [m2]. *)
Theorem word_cards_prefix data_dir σ l σ' (m1 m2 : Z) :
  load_data data_dir σ = (inr l, σ') → (0 ≤ m1 ≤ m2)%Z →
  ∃ words1 cards1 words2 cards2,
    select_words l m1 σ' = (inr words1, σ') ∧
    plot_word_cards l m1 σ' = (inr cards1, σ') ∧
    select_words l m2 σ' = (inr words2, σ') ∧
    plot_word_cards l m2 σ' = (inr cards2, σ') ∧
    words1 = take (Z.to_nat m1) words2 ∧ cards1 = take (Z.to_nat m1) cards2.
Proof.
  intros (data & Hl & Hrows & Hreq & _)%load_data_inv Hm.
  assert (∀ r, r ∈ rows data → ∃ s, r !! ipa = Some (Str s)) as Hstr.
  { intros r Hr. rewrite Hrows in Hr. by eapply loaded_table_ipa. }
  destruct (plot_word_cards_on l σ' data m1 Hl Hreq Hstr) as [Hsel1 Hcards1].
  destruct (plot_word_cards_on l σ' data m2 Hl Hreq Hstr) as [Hsel2 Hcards2].
  eexists _, _, _, _. split; [exact Hsel1|]. split; [exact Hcards1|].
  split; [exact Hsel2|]. split; [exact Hcards2|].
  assert (head m1 (ranked_words (rows data)) =
          take (Z.to_nat m1) (head m2 (ranked_words (rows data)))) as E.
  { unfold head. rewrite !(proj2 (Z.leb_le 0 _)) by lia.
    rewrite take_take. f_equal. lia. }
  split; [done|]. by rewrite E, fmap_take.
Qed.

(** X12.  In a run of [main] the steps outside the tables (the command
    line, the output directory, the theme, the drawing and saving of each
    figure, the report) may raise.  A run fails only with what such a step
    raised or with the error of [load_data]: on the loaded table no table
    operation of the three plot functions raises.  When no step outside
    the tables raises, [main] fails exactly where [load_data] fails, and
    otherwise it returns: each plot function has given what it gives when
    called alone on the loaded table, there are at most twelve cards, and
    the store has one more object, the copy of [plot_ipa_length]. *)
Theorem main_runs (w : world) data_dir σ :
  (∀ e σ', main w data_dir σ = (inl e, σ') →
     (∃ s, e = StepFailed s ∧ w s = true) ∨ (load_data data_dir σ).1 = inl e) ∧
  ((∀ s, w s = false) →
   match load_data data_dir σ with
   | (inl e, σ1) => main w data_dir σ = (inl e, σ1)
   | (inr l, σ1) =>
       ∃ counts t cards,
         main w data_dir σ = (inr (counts, length σ1, cards), σ1 ++ [t]) ∧
         plot_variant_counts l σ1 = (inr counts, σ1) ∧
         plot_ipa_length l σ1 = (inr (length σ1), σ1 ++ [t]) ∧
         plot_word_cards l 12 σ1 = (inr cards, σ1) ∧
         length cards ≤ 12
   end).
Proof.
  assert (∀ l σ1, load_data data_dir σ = (inr l, σ1) →
            ∃ counts t cards,
              plot_variant_counts l σ1 = (inr counts, σ1) ∧
              plot_ipa_length l σ1 = (inr (length σ1), σ1 ++ [t]) ∧
              plot_word_cards l 12 σ1 = (inr cards, σ1) ∧
              plot_word_cards l 12 (σ1 ++ [t]) = (inr cards, σ1 ++ [t]) ∧
              length cards ≤ 12) as Hplots.
  { intros l σ1 Hload.
    destruct (load_data_inv _ _ _ _ Hload) as (data & Hl & Hrows & Hreq & _).
    assert (∀ r, r ∈ rows data → ∃ s, r !! ipa = Some (Str s)) as Hstr.
    { intros r Hr. rewrite Hrows in Hr. by eapply loaded_table_ipa. }
    set (t := set_column ipa_len (str_len (column ipa (rows data))) data).
    destruct (plot_word_cards_on l σ1 data 12 Hl Hreq Hstr) as [_ Hcards].
    destruct (plot_word_cards_on l (σ1 ++ [t]) data 12) as [_ Hcards'];
      [by apply lookup_app_l_Some|done|done|].
    eexists _, t, _. split; [|split; [|split; [exact Hcards|split; [exact Hcards'|]]]].
    - rewrite plot_variant_counts_run, Hl, check_columns_ok; [done|].
      apply (required_columns_loaded _ _ Hreq). set_solver.
    - rewrite plot_ipa_length_run, Hl.
      by rewrite decide_True by (apply Hreq, required_elem; set_solver).
    - rewrite length_fmap. unfold head. simpl. rewrite length_take. lia. }
  split.
  - intros e σ'. unfold main.
    rewrite bind_run, outside_run. destruct (w ParseArgs) eqn:E1.
    { intros [= <- <-]. left. eauto. }
    rewrite bind_run, outside_run. destruct (w MakeOutdir) eqn:E2.
    { intros [= <- <-]. left. eauto. }
    rewrite bind_run.
    destruct (load_data data_dir σ) as [[e0|l] σ1] eqn:Hload.
    { intros [= <- <-]. by right. }
    destruct (Hplots l σ1 eq_refl) as (counts & t & cards & Hc & Ht & _ & Hk & _).
    rewrite bind_run, outside_run. destruct (w SetTheme) eqn:E3.
    { intros [= <- <-]. left. eauto. }
    rewrite bind_run, Hc, bind_run, outside_run. destruct (w DrawCounts) eqn:E4.
    { intros [= <- <-]. left. eauto. }
    rewrite bind_run, Ht, bind_run, outside_run. destruct (w DrawLengths) eqn:E5.
    { intros [= <- <-]. left. eauto. }
    rewrite bind_run, Hk, bind_run, outside_run. destruct (w DrawCards) eqn:E6.
    { intros [= <- <-]. left. eauto. }
    rewrite bind_run, outside_run. destruct (w Report) eqn:E7.
    { intros [= <- <-]. left. eauto. }
    done.
  - intros Hw. unfold main.
    rewrite bind_run, outside_run, Hw, bind_run, outside_run, Hw, bind_run.
    destruct (load_data data_dir σ) as [[e0|l] σ1] eqn:Hload; [done|].
    destruct (Hplots l σ1 eq_refl) as (counts & t & cards & Hc & Ht & Hk0 & Hk & Hlen).
    exists counts, t, cards.
    rewrite bind_run, outside_run, Hw, bind_run, Hc, bind_run, outside_run, Hw.
    rewrite bind_run, Ht, bind_run, outside_run, Hw.
    rewrite bind_run, Hk, bind_run, outside_run, Hw, bind_run, outside_run, Hw.
    done.
Qed.

(** X13.  The order in which the directory lists its entries does not
    matter: two listings of the same entries, in which no two entries
    have the same name, give the same files in the same order, and
    [load_data] does the same on both. *)
Theorem load_data_listing_order (dir1 dir2 : directory scalar) σ :
  dir1 ≡ₚ dir2 → NoDup (fst <$> dir1) →
  input_files dir1 = input_files dir2 ∧ load_data dir1 σ = load_data dir2 σ.
Proof.
  intros Hperm Hnd.
  assert (input_files dir1 = input_files dir2) as E.
  { apply (StronglySorted_unique_strong (λ p q, cmp_le str_cmp p.1 q.1)).
    - intros p q Hp%elem_of_input_files Hq%elem_of_input_files Hpq Hqp.
      destruct Hp as [Hp _], Hq as [Hq _]. rewrite <- Hperm in Hq.
      assert (p.1 = q.1) as Hname.
      { unfold cmp_le in *. apply str_cmp_eq.
        rewrite (@cmp_opp _ _ _ str_cmp_total p.1 q.1 I I) in Hqp.
        by destruct (str_cmp p.1 q.1). }
      apply list_elem_of_lookup in Hp as [i Hi], Hq as [j Hj].
      assert (i = j) as ->.
      { apply (NoDup_lookup (fst <$> dir1) i j p.1); [done| |].
        - by rewrite list_lookup_fmap, Hi.
        - by rewrite list_lookup_fmap, Hj, Hname. }
      congruence.
    - apply input_files_sorted.
    - apply input_files_sorted.
    - unfold input_files, sorted_paths, glob. rewrite !stable_sort_perm.
      by rewrite Hperm. }
  split; [done|]. unfold load_data. fold (input_files dir1) (input_files dir2).
  by rewrite E.
Qed.
End cards_more.

(** ** The further statements at the sample data *)

Lemma broken_dir_unreadable :
  ∃ p : pystr * file Z, input_file broken_dir p ∧ ¬ readable p.
Proof.
  exists (lit "heteronyms_a.csv", Unreadable). split; [split|].
  - unfold broken_dir. rewrite !elem_of_cons. tauto.
  - by exists (lit "a").
  - by intros [df E].
Qed.

Lemma load_data_read_error_witness :
  (∃ p : pystr * file Z, input_file broken_dir p ∧ ¬ readable p) ∧
  ∃ (p : pystr * file Z) σ',
    load_data broken_dir [] = (inl (ReadCsvError p.1), σ') ∧
    input_file broken_dir p ∧ ¬ readable p ∧
    ∀ q, input_file broken_dir q → ¬ readable q → cmp_le str_cmp p.1 q.1.
Proof.
  split; [apply broken_dir_unreadable|].
  apply (@load_data_read_error Z Z_scalar broken_dir []), broken_dir_unreadable.
Defined.

Lemma loaded_columns_witness :
  let σ' := (load_data sample_dir []).2 in
  load_data sample_dir [] = (inr 2, σ') ∧
  ∃ data, σ' !! 2 = Some data ∧ NoDup (columns data) ∧
          ∀ c, c ∈ columns data ↔
               c = source_file ∨
               ∃ p : pystr * file Z, input_file sample_dir p ∧ c ∈ file_columns p.
Proof.
  intros σ'. split; [apply sample_dir_loads|].
  apply (@loaded_columns Z Z_scalar sample_dir [] 2 σ'), sample_dir_loads.
Defined.

Lemma loaded_cells_trimmed_witness :
  let σ' := (load_data gap_dir []).2 in
  load_data gap_dir [] = (inr 1, σ') ∧
  ∃ data, σ' !! 1 = Some data ∧
    Forall2 (λ r0 r, ∀ c, c ∈ [language; word; ipa] →
               ∃ t, r !! c = Some (Str t) ∧ trimmed t ∧
                    ∀ s, r0 !! c = Some (Str s) → trim_of s t)
            (tagged_rows (input_files gap_dir)) (rows data).
Proof.
  intros σ'. split; [apply gap_dir_loads|].
  apply (@loaded_cells_trimmed Z Z_scalar gap_dir [] 1 σ'), gap_dir_loads.
Defined.

Lemma own_tag_dir_loads :
  load_data own_tag_dir [] = (inr 1, (load_data own_tag_dir []).2).
Proof. vm_compute. reflexivity. Qed.

Lemma loaded_other_columns_witness :
  let σ' := (load_data own_tag_dir []).2 in
  load_data own_tag_dir [] = (inr 1, σ') ∧
  ∃ data, σ' !! 1 = Some data ∧
    Forall2 (λ (nr : pystr * row Z) r,
               r !! source_file = Some (Str nr.1) ∧
               ∀ c, c ∉ [language; word; ipa; source_file] →
                 (nr.2 !! c = None → r !! c = None) ∧
                 (∀ s, nr.2 !! c = Some (Str s) → r !! c = Some (Str s)) ∧
                 (∀ x, nr.2 !! c = Some (Num x) → ∃ y, r !! c = Some (Num y)))
            (named_rows (input_files own_tag_dir)) (rows data).
Proof.
  intros σ'. split; [apply own_tag_dir_loads|].
  apply (@loaded_other_columns Z Z_scalar own_tag_dir [] 1 σ'), own_tag_dir_loads.
Defined.

Lemma ipa_length_table_witness :
  let σ' := (load_data sample_dir []).2 in
  load_data sample_dir [] = (inr 2, σ') ∧
  ∃ data t,
    σ' !! 2 = Some data ∧
    plot_ipa_length 2 σ' = (inr (length σ'), σ' ++ [t]) ∧
    (∀ c, c ∈ columns t ↔ c = ipa_len ∨ c ∈ columns data) ∧
    Forall2 (λ r r', ∃ s, r !! ipa = Some (Str s) ∧
                          r' = <[ipa_len := Num (scalar_of_nat (length s))]> r)
            (rows data) (rows t).
Proof.
  intros σ'. split; [apply sample_dir_loads|].
  apply (@ipa_length_table Z Z_scalar sample_dir [] 2 σ'), sample_dir_loads.
Defined.

Lemma variant_counts_bounds_witness :
  let σ := [keyless_table] in
  let a := {| c_language := Str (lit "en"); c_word := Str (lit "read");
              n_variants := 2; n_senses := 1 |} in
  (σ !! 0 = Some keyless_table ∧ (plot_variant_counts 0 σ).1 = inr [a] ∧ a ∈ [a]) ∧
  let group := subset_rows (c_language a) (c_word a) (rows keyless_table) in
  1 ≤ length group ∧
  n_variants a ≤ length group ∧ n_senses a ≤ length group ∧
  (n_variants a = 0 ↔ ∀ r, r ∈ group → r !! ipa = None) ∧
  (n_senses a = 0 ↔ ∀ r, r ∈ group → r !! sense_id = None).
Proof.
  intros σ a.
  assert ((plot_variant_counts 0 σ).1 = inr [a]) as Hrun by (vm_compute; reflexivity).
  assert (a ∈ [a]) as Ha by left.
  split; [done|].
  apply (@variant_counts_bounds Z Z_scalar 0 σ keyless_table [a] a eq_refl Hrun Ha).
Defined.

Lemma variant_counts_partition_witness :
  let σ := [keyless_table] in
  let counts := [{| c_language := Str (lit "en"); c_word := Str (lit "read");
                    n_variants := 2; n_senses := 1 |}] in
  (σ !! 0 = Some keyless_table ∧ (plot_variant_counts 0 σ).1 = inr counts) ∧
  sum_list_with
    (λ a, length (subset_rows (c_language a) (c_word a) (rows keyless_table))) counts =
    length (filter (λ r : row Z, is_Some (r !! language) ∧ is_Some (r !! word))
              (rows keyless_table)) ∧
  length counts ≤ length (rows keyless_table).
Proof.
  intros σ counts.
  assert ((plot_variant_counts 0 σ).1 = inr counts) as Hrun by (vm_compute; reflexivity).
  split; [done|].
  apply (@variant_counts_partition Z Z_scalar 0 σ keyless_table counts eq_refl Hrun).
Defined.

Lemma loaded_counts_cover_witness :
  let σ' := (load_data gap_dir []).2 in
  load_data gap_dir [] = (inr 1, σ') ∧
  ∃ data counts,
    σ' !! 1 = Some data ∧
    plot_variant_counts 1 σ' = (inr counts, σ') ∧
    (∀ r, r ∈ rows data →
          ∃ a, a ∈ counts ∧ in_group (c_language a) (c_word a) r) ∧
    sum_list_with (λ a, length (subset_rows (c_language a) (c_word a) (rows data)))
      counts = length (rows data).
Proof.
  intros σ'. split; [apply gap_dir_loads|].
  apply (@loaded_counts_cover Z Z_scalar gap_dir [] 1 σ'), gap_dir_loads.
Defined.

Lemma word_cards_consistent_witness :
  let σ' := (load_data sample_dir []).2 in
  load_data sample_dir [] = (inr 2, σ') ∧
  ∃ words cards,
    select_words 2 12 σ' = (inr words, σ') ∧
    plot_word_cards 2 12 σ' = (inr cards, σ') ∧
    Forall2 (λ w cd,
               card_key cd = words_key w ∧
               length (card_ipas cd) = w_n_variants w ∧
               1 ≤ length (card_ipas cd) ∧
               ∀ i m, (i, m) ∈ card_meanings cd → i ∈ card_ipas cd)
            words cards.
Proof.
  intros σ'. split; [apply sample_dir_loads|].
  apply (@word_cards_consistent Z Z_scalar sample_dir [] 2 σ' 12), sample_dir_loads.
Defined.

Lemma word_cards_negative_witness :
  let σ' := (load_data sample_dir []).2 in
  (load_data sample_dir [] = (inr 2, σ') ∧ (-1 < 0)%Z) ∧
  ∃ data all words cards,
    σ' !! 2 = Some data ∧
    NoDup (words_key <$> all) ∧
    (∀ lang wd, (lang, wd) ∈ words_key <$> all ↔
                ∃ r, r ∈ rows data ∧ in_group lang wd r) ∧
    (∀ w, w ∈ all →
          group_distinct (rows data) (w_language w) (w_word w) ipa (w_n_variants w)) ∧
    StronglySorted words_before all ∧
    select_words 2 (Z.of_nat (length (rows data))) σ' = (inr all, σ') ∧
    select_words 2 (-1) σ' = (inr words, σ') ∧
    plot_word_cards 2 (-1) σ' = (inr cards, σ') ∧
    words = take (length all - Z.to_nat (- -1)) all ∧
    card_key <$> cards = words_key <$> words.
Proof.
  intros σ'. split; [split; [apply sample_dir_loads|lia]|].
  apply (@word_cards_negative Z Z_scalar sample_dir [] 2 σ' (-1));
    [apply sample_dir_loads|lia].
Defined.

Lemma word_cards_prefix_witness :
  let σ' := (load_data sample_dir []).2 in
  (load_data sample_dir [] = (inr 2, σ') ∧ (0 ≤ 1 ≤ 2)%Z) ∧
  ∃ words1 cards1 words2 cards2,
    select_words 2 1 σ' = (inr words1, σ') ∧
    plot_word_cards 2 1 σ' = (inr cards1, σ') ∧
    select_words 2 2 σ' = (inr words2, σ') ∧
    plot_word_cards 2 2 σ' = (inr cards2, σ') ∧
    words1 = take (Z.to_nat 1) words2 ∧ cards1 = take (Z.to_nat 1) cards2.
Proof.
  intros σ'. split; [split; [apply sample_dir_loads|lia]|].
  apply (@word_cards_prefix Z Z_scalar sample_dir [] 2 σ' 1 2);
    [apply sample_dir_loads|lia].
Defined.

(** A run in which no step outside the tables raises. *)
Lemma main_runs_witness :
  let w : world := λ _, false in
  let σ1 := (load_data sample_dir []).2 in
  (∀ s, w s = false) ∧
  ∃ counts t cards,
    main w sample_dir [] = (inr (counts, length σ1, cards), σ1 ++ [t]) ∧
    plot_variant_counts 2 σ1 = (inr counts, σ1) ∧
    plot_ipa_length 2 σ1 = (inr (length σ1), σ1 ++ [t]) ∧
    plot_word_cards 2 12 σ1 = (inr cards, σ1) ∧
    length cards ≤ 12.
Proof.
  intros w σ1. split; [done|].
  pose proof (proj2 (@main_runs Z Z_scalar w sample_dir []) (λ _, eq_refl)) as Hm.
  rewrite sample_dir_loads in Hm. exact Hm.
Defined.

Lemma sample_dir_names : NoDup (fst <$> sample_dir).
Proof. apply (bool_decide_unpack _). vm_compute. reflexivity. Qed.

Lemma load_data_listing_order_witness :
  (sample_dir ≡ₚ reverse sample_dir ∧ NoDup (fst <$> sample_dir)) ∧
  input_files sample_dir = input_files (reverse sample_dir) ∧
  load_data sample_dir [] = load_data (reverse sample_dir) [].
Proof.
  assert (sample_dir ≡ₚ reverse sample_dir) as Hperm
    by (symmetry; apply reverse_Permutation).
  split; [split; [done|apply sample_dir_names]|].
  apply (@load_data_listing_order Z Z_scalar sample_dir (reverse sample_dir) []
           Hperm sample_dir_names).
Defined.
